(** * nrds_utils.fetch: raster fetchers, class remap and land-cover colorizer

    A shallow embedding of [src/nrds_utils/fetch.py].

    The three Python functions are written in a small state-and-exception
    monad [Py].  Its state, the [world], holds
    - the heap of numpy arrays (arrays are objects: [cover_colors[mask] = ...]
      and [mapping_ar[k] = v] update them in place),
    - the log of the HTTP requests issued through [requests.get],
    - the lines written by [print].

    The two external collaborators, [requests.get] and [imageio.imread], are
    parameters of the development (Section variables). *)

From Stdlib Require Import ZArith QArith Sorted.
From stdpp Require Import base list gmap strings pretty.

Local Open Scope nat_scope.

(** ** Python values, arrays, exceptions *)

(** The values that travel as request parameters. *)
Inductive pyval :=
| PyNone
| PyInt (z : Z)
| PyStr (s : string).

(** [str(x)] and [format(x)] on those values. *)
Definition py_str (x : pyval) : string :=
  match x with
  | PyNone => "None"
  | PyInt z => pretty z
  | PyStr s => s
  end.

(** A numpy array: its [shape] and its elements in row-major order. *)
Record ndarray (A : Type) := NdArray { shape : list nat; data : list A }.
Arguments NdArray {A} shape data.
Arguments shape {A} _.
Arguments data {A} _.

(** Number of elements announced by a shape. *)
Definition size_of (shp : list nat) : nat := foldr Nat.mul 1 shp.

(** A well-formed array holds as many elements as its shape says. *)
Definition wf_array {A} (a : ndarray A) : Prop :=
  length (data a) = size_of (shape a).

(** Heap objects.  Integer arrays stand for numpy's integer dtypes
    ([uint8] arrays hold values below 256), float arrays for [float64].
    Every float this module computes is one of 0, 0.375, 0.5, 1 or 255 times
    one of them; these are dyadic rationals that binary64 represents exactly
    and whose product with 255 is exact, so rationals model them without
    rounding. *)
Inductive object :=
| IntArr (a : ndarray Z)
| BoolArr (a : ndarray bool)
| FloatArr (a : ndarray Q).

Inductive exn :=
| TransportError            (* raised inside [requests.get] *)
| DecodeError               (* raised inside [imread] *)
| KeyError (k : Z)
| IndexError
| ValueError
| TypeError.                (* a reference that holds no array of the kind read *)

(** What a function of the module hands back: [None] or an array reference. *)
Inductive value :=
| VNone
| VRef (a : nat).

#[global] Instance value_eq_dec : EqDecision value.
Proof. solve_decision. Defined.

Definition request : Type := string * gmap string pyval.

Record world := World {
  heap : list object;
  sent : list request;
  stdout : list string
}.

(** ** The monad *)

Inductive outcome (A : Type) :=
| Return (a : A)
| Raise (e : exn)
| OutOfFuel.
Arguments Return {A} a.
Arguments Raise {A} e.
Arguments OutOfFuel {A}.

Definition Py (A : Type) : Type := world → outcome A * world.

#[global] Instance py_ret : MRet Py := λ A a w, (Return a, w).

#[global] Instance py_bind : MBind Py := λ A B f m w,
  match m w with
  | (Return a, w') => f a w'
  | (Raise e, w') => (Raise e, w')
  | (OutOfFuel, w') => (OutOfFuel, w')
  end.

#[global] Instance py_throw : MThrow exn Py := λ A e w, (Raise e, w).

(** [try: body / except: handler] with a bare [except], which catches every
    exception.  What the body did to the world before raising stays done. *)
Definition try_except {A} (body handler : Py A) : Py A := λ w,
  match body w with
  | (Raise _, w') => handler w'
  | r => r
  end.

(** Lifting of a pure computation that may raise. *)
Definition lift {A} (r : exn + A) : Py A :=
  match r with
  | inl e => mthrow e
  | inr a => mret a
  end.

Fixpoint for_each {A} (l : list A) (body : A → Py unit) : Py unit :=
  match l with
  | [] => mret ()
  | x :: l' => body x ;; for_each l' body
  end.

(** ** Heap primitives *)

Definition alloc (o : object) : Py nat := λ w,
  (Return (length (heap w)),
   World (heap w ++ [o]) (sent w) (stdout w)).

Definition load (a : nat) : Py object := λ w,
  match heap w !! a with
  | Some o => (Return o, w)
  | None => (Raise TypeError, w)
  end.

Definition store (a : nat) (o : object) : Py unit := λ w,
  (Return (), World (<[a := o]> (heap w)) (sent w) (stdout w)).

Definition load_int (a : nat) : Py (ndarray Z) :=
  o ← load a;
  match o with IntArr x => mret x | _ => mthrow TypeError end.

Definition load_bool (a : nat) : Py (ndarray bool) :=
  o ← load a;
  match o with BoolArr x => mret x | _ => mthrow TypeError end.

Definition load_float (a : nat) : Py (ndarray Q) :=
  o ← load a;
  match o with FloatArr x => mret x | _ => mthrow TypeError end.

Definition print (s : string) : Py unit := λ w,
  (Return (), World (heap w) (sent w) (stdout w ++ [s])).

(** ** numpy operations on array values *)

(** [np.zeros(shape)]. *)
Definition np_zeros {A} (zero : A) (shp : list nat) : ndarray A :=
  NdArray shp (replicate (size_of shp) zero).

(** Insertion into an ascending list without repetition. *)
Fixpoint insert_sorted (x : Z) (l : list Z) : list Z :=
  match l with
  | [] => [x]
  | y :: l' =>
      if (x <? y)%Z then x :: y :: l'
      else if (x =? y)%Z then y :: l'
      else y :: insert_sorted x l'
  end.

Definition unique_sorted (l : list Z) : list Z := foldr insert_sorted [] l.

(** [np.unique(a)]: the distinct elements of the flattened array, ascending,
    as a 1-D array. *)
Definition np_unique (a : ndarray Z) : ndarray Z :=
  let u := unique_sorted (data a) in NdArray [length u] u.

(** [a == c] with a scalar [c]: an array of booleans of the shape of [a]. *)
Definition eq_scalar (a : ndarray Z) (c : Z) : ndarray bool :=
  NdArray (shape a) (map (λ x, (x =? c)%Z) (data a)).

Definition count_true (m : list bool) : nat := length (filter (λ b, b = true) m).

(** Boolean-mask assignment of a 1-D value, one element per [True],
    in row-major order. *)
Fixpoint fill_true (mask : list bool) (dat vals : list Q) : list Q :=
  match mask, dat with
  | b :: m, x :: d =>
      if b then
        match vals with
        | v :: vs => v :: fill_true m d vs
        | [] => x :: fill_true m d []
        end
      else x :: fill_true m d vals
  | _, _ => dat
  end.

(** Boolean-mask assignment of a row of [n] elements to every row whose mask
    entry is [True]. *)
Fixpoint fill_rows (n : nat) (mask : list bool) (dat row : list Q) : list Q :=
  match mask with
  | [] => dat
  | b :: m => (if b then row else take n dat) ++ fill_rows n m (drop n dat) row
  end.

(** [arr[mask] = [r, g, b]], the in-place update as a function on the value
    of [arr].  numpy distinguishes
    - a mask of the shape of [arr]: it selects single elements, and the three
      values must be exactly as many as the [True] entries ([ValueError]
      otherwise);
    - a mask whose shape is the shape of [arr] without its last axis: it
      selects rows, and the three values must fill a row;
    - a mask that fits neither way: [IndexError].
    In [colorize_landcover], [arr] has rank 3 and the mask has the rank of
    [img], at least 2, so no other case arises. *)
Definition setitem_mask (arr : ndarray Q) (mask : ndarray bool) (rgb : list Q)
  : exn + ndarray Q :=
  if decide (shape mask = shape arr) then
    if decide (count_true (data mask) = length rgb) then
      inr (NdArray (shape arr) (fill_true (data mask) (data arr) rgb))
    else inl ValueError
  else if decide (shape arr ≠ [] ∧ shape mask = removelast (shape arr)) then
    if decide (List.last (shape arr) 0 = length rgb) then
      inr (NdArray (shape arr)
             (fill_rows (length rgb) (data mask) (data arr) rgb))
    else inl ValueError
  else inl IndexError.

(** [arr * c] on floats. *)
Definition mul_scalar (arr : ndarray Q) (c : Q) : ndarray Q :=
  NdArray (shape arr) (map (λ x, Qmult x c) (data arr)).

(** [float -> uint8] conversion: truncation toward zero (then the low eight
    bits; every value converted here lies in 0..255). *)
Definition trunc_uint8 (q : Q) : Z :=
  ((Qnum q ÷ Z.pos (Qden q)) mod 256)%Z.

Definition astype_uint8 (arr : ndarray Q) : ndarray Z :=
  NdArray (shape arr) (map trunc_uint8 (data arr)).

(** [shape[i]] on the shape tuple. *)
Definition shape_index (shp : list nat) (i : nat) : exn + nat :=
  match shp !! i with
  | Some n => inr n
  | None => inl IndexError
  end.

(** ** Land-cover colorizer *)

Definition COLOR_MAP : gmap Z (list Q) :=
  list_to_map
    [ (0%Z, [1%Q; 1%Q; 1%Q]);          (* unlabeled but mapped *)
      (1%Z, [0%Q; 0%Q; 1%Q]);          (* water or ice/snow *)
      (2%Z, [0%Q; (1#2)%Q; 0%Q]);      (* trees *)
      (3%Z, [(1#2)%Q; 1%Q; (1#2)%Q]);  (* non-forest, vegetated *)
      (4%Z, [(1#2)%Q; (3#8)%Q; (3#8)%Q]);  (* barren/non-vegetated *)
      (5%Z, [0%Q; 0%Q; 0%Q]);          (* developed/building *)
      (255%Z, [1%Q; 0%Q; 0%Q]) ].      (* unmapped, nodata *)

(** [COLOR_MAP[cov]]. *)
Definition color_of (cov : Z) : exn + list Q :=
  match COLOR_MAP !! cov with
  | Some c => inr c
  | None => inl (KeyError cov)
  end.

(** The body of [for cov in np.unique(img)].  Python evaluates the right-hand
    side [COLOR_MAP[cov]] before it performs the subscript assignment. *)
Definition paint (img cover_colors : nat) (cov : Z) : Py unit :=
  im ← load_int img;
  mask ← alloc (BoolArr (eq_scalar im cov));
  rgb ← lift (color_of cov);
  cc ← load_float cover_colors;
  m ← load_bool mask;
  cc' ← lift (setitem_mask cc m rgb);
  store cover_colors (FloatArr cc').

(** [colorize_landcover(img)]; [img] is the reference to the input array. *)
Definition colorize_landcover (img : nat) : Py value :=
  im ← load_int img;
  h ← lift (shape_index (shape im) 0);
  w ← lift (shape_index (shape im) 1);
  cover_colors ← alloc (FloatArr (np_zeros 0%Q [h; w; 3]));
  uniq ← alloc (IntArr (np_unique im));
  covs ← load_int uniq;
  for_each (data covs) (paint img cover_colors);;
  cc ← load_float cover_colors;
  scaled ← alloc (FloatArr (mul_scalar cc 255%Q));
  sc ← load_float scaled;
  land_color ← alloc (IntArr (astype_uint8 sc));
  mret (VRef land_color).

(** ** The fetchers *)

Definition bytes : Type := list Byte.byte.

(** [for key, value in kwargs.items(): params.update({key: value})];
    [kwargs] is given by its items, in insertion order. *)
Definition update_all (params : gmap string pyval)
    (kwargs : list (string * pyval)) : gmap string pyval :=
  foldl (λ p kv, <[kv.1 := kv.2]> p) params kwargs.

Definition NAIP_BASE_URL : string :=
  "https://imagery.oregonexplorer.info/arcgis/rest/services/" ++
  "NAIP_2016/NAIP_2016_SL/ImageServer/exportImage?".

Definition naip_params (bbox : list pyval) (width height epsg : pyval)
  : gmap string pyval :=
  list_to_map
    [ ("bbox", PyStr (String.concat "," (map py_str bbox)));
      ("bboxSR", epsg);
      ("size", PyStr (py_str width ++ "," ++ py_str height));
      ("imageSR", epsg);
      ("format", PyStr "tiff");
      ("pixelType", PyStr "U8");
      ("noData", PyNone);
      ("noDataInterpretation", PyStr "esriNoDataMatchAny");
      ("interpolation", PyStr "+RSP_BilinearInterpolation");
      ("compression", PyNone);
      ("compressionQuality", PyNone);
      ("bandIds", PyNone);
      ("mosaicRule", PyNone);
      ("renderingRule", PyNone);
      ("f", PyStr "image") ].

Definition NLCD_BASE_URL : string :=
  "https://www.mrlc.gov/geoserver/mrlc_display/NLCD_2016_Land_Cover_L48/" ++
  "wms?service=WMS&request=GetMap".

Definition nlcd_params (bbox : list pyval) (width height layer epsg : pyval)
  : gmap string pyval :=
  list_to_map
    [ ("bbox", PyStr (String.concat "," (map py_str bbox)));
      ("crs", PyStr ("epsg:" ++ py_str epsg));
      ("width", width);
      ("height", height);
      ("format", PyStr "image/geotiff");
      ("layers", layer) ].

(** The class remap table, in the order of the dict literal. *)
Definition REMAP : list (Z * Z) :=
  [ (1, 1);    (* open water *)
    (2, 1);    (* perennial ice/snow *)
    (3, 5);    (* developed, open space *)
    (4, 5);    (* developed, low intensity *)
    (5, 5);    (* developed, medium intensity *)
    (6, 5);    (* developed, high intensity *)
    (7, 4);    (* barren land (rock/stand/clay) *)
    (8, 4);    (* unconsolidated shore *)
    (9, 2);    (* deciduous forest *)
    (10, 2);   (* evergreen forest *)
    (11, 2);   (* mixed forest *)
    (12, 3);   (* dwarf scrub (AK only) *)
    (13, 3);   (* shrub/scrub *)
    (14, 3);   (* grasslands/herbaceous *)
    (15, 3);   (* sedge/herbaceous (AK only) *)
    (16, 3);   (* lichens (AK only) *)
    (17, 3);   (* moss (AK only) *)
    (18, 3);   (* pasture/hay *)
    (19, 3);   (* cultivated crops *)
    (20, 2);   (* woody wetlands *)
    (21, 3)    (* emergent herbaceous wetlands *)
  ]%Z.

(** [np.array(l, dtype=np.uint8)] on a list of integers; the keys and the
    values of [REMAP] all fit eight bits. *)
Definition np_array_uint8 (l : list Z) : ndarray Z :=
  NdArray [length l] (map (λ z, z mod 256)%Z l).

(** [a.max()]; numpy refuses an empty array. *)
Definition amax (a : ndarray Z) : exn + Z :=
  match data a with
  | [] => inl ValueError
  | x :: l => inr (foldl Z.max x l)
  end.

(** An integer used as index into an axis of length [n]: negative indices
    count from the end, anything outside [-n, n) is out of bounds. *)
Definition index_in (n : nat) (i : Z) : option nat :=
  if decide (0 ≤ i < Z.of_nat n)%Z then Some (Z.to_nat i)
  else if decide (- Z.of_nat n ≤ i < 0)%Z then Some (Z.to_nat (i + Z.of_nat n))
  else None.

(** [arr[idx] = vals] for a 1-D [arr] and integer arrays [idx], [vals] of one
    shape: the assignments happen in order. *)
Definition setitem_index (arr idx vals : ndarray Z) : exn + ndarray Z :=
  if decide (shape idx = shape vals) then
    match mapM (index_in (length (data arr))) (data idx) with
    | Some js =>
        inr (NdArray (shape arr)
               (foldl (λ d jv, <[jv.1 := jv.2]> d) (data arr)
                  (zip js (data vals))))
    | None => inl IndexError
    end
  else inl ValueError.

(** [arr[idx]] for a 1-D [arr] and an integer array [idx] of any shape: the
    result has the shape of [idx]. *)
Definition getitem_index (arr idx : ndarray Z) : exn + ndarray Z :=
  match mapM (λ i, j ← index_in (length (data arr)) i; data arr !! j)
          (data idx) with
  | Some l => inr (NdArray (shape idx) l)
  | None => inl IndexError
  end.

(** Lines 108-136 of [nlcd_from_mrlc]: the remap of the decoded raster through
    the dense lookup array.  [k.max() + 1] is 22, in eight bits as in machine
    integers. *)
Definition remap_stage (img : nat) : Py nat :=
  k ← alloc (IntArr (np_array_uint8 (REMAP.*1)));
  v ← alloc (IntArr (np_array_uint8 (REMAP.*2)));
  ka ← load_int k;
  kmax ← lift (amax ka);
  mapping_ar ← alloc (IntArr (np_zeros 0%Z [Z.to_nat (kmax + 1)]));
  ma ← load_int mapping_ar;
  ka ← load_int k;
  va ← load_int v;
  ma' ← lift (setitem_index ma ka va);
  store mapping_ar (IntArr ma');;
  ma ← load_int mapping_ar;
  im ← load_int img;
  out ← lift (getitem_index ma im);
  alloc (IntArr out).

(** The defaults of the keyword arguments. *)
Definition default_epsg : pyval := PyInt 5070.
Definition default_num_retries : Z := 3.
Definition default_layer : pyval := PyStr "NLCD_2016_Land_Cover_L48".

Section Fetchers.

(** [requests.get]: what the [n]-th call made through it answers to a
    request, the body of the response or an exception. *)
Variable requests_get : nat → request → exn + bytes.

(** [imread(io.BytesIO(content), format=...)]: the decoded raster or an
    exception. *)
Variable imread : option string → bytes → exn + ndarray Z.

(** [requests.get(url, params=params)]: the call is logged, then answered. *)
Definition http_get (url : string) (params : gmap string pyval) : Py bytes :=
  λ w,
  let w' := World (heap w) (sent w ++ [(url, params)]) (stdout w) in
  match requests_get (length (sent w)) (url, params) with
  | inl e => (Raise e, w')
  | inr body => (Return body, w')
  end.

(** The attempt made by the [n]-th call fails with [e]: in the transport,
    or in the decoding of the body received. *)
Definition fetch_fails (format : option string) (n : nat) (req : request)
    (e : exn) : Prop :=
  requests_get n req = inl e
  ∨ ∃ body, requests_get n req = inr body ∧ imread format body = inl e.

(** [imread(io.BytesIO(content), format=format)]: the raster is a new array. *)
Definition imread_bytes (format : option string) (content : bytes) : Py nat :=
  arr ← lift (imread format content);
  alloc (IntArr arr).

(** The [while retries > 0 and img is None] loop; its state is the pair of
    the local variables [retries] and [img]. *)
Fixpoint retry_loop (fuel : nat) (params : gmap string pyval)
    (retries : Z) (img : value) : Py (Z * value) :=
  if decide ((0 < retries)%Z ∧ img = VNone) then
    match fuel with
    | 0 => λ w, (OutOfFuel, w)
    | S fuel' =>
        st ← try_except
               (r ← http_get NAIP_BASE_URL params;
                i ← imread_bytes None r;
                mret (retries, VRef i))
               (mret ((retries - 1)%Z, img));
        retry_loop fuel' params st.1 st.2
    end
  else mret (retries, img).

(** [naip2016_from_orgeo(bbox, width, height, epsg, num_retries, **kwargs)].
    [fuel] bounds the iterations of the loop in the model; [num_retries]
    iterations always suffice ([naip_fuel]). *)
Definition naip2016_from_orgeo (fuel : nat) (bbox : list pyval)
    (width height epsg : pyval) (num_retries : Z)
    (kwargs : list (string * pyval)) : Py value :=
  let params := update_all (naip_params bbox width height epsg) kwargs in
  st ← retry_loop fuel params num_retries VNone;
  match st.2 with
  | VNone =>
      print ("Failed to get image after " ++ pretty num_retries ++
             " retries.");;
      mret VNone
  | img => mret img
  end.

(** [nlcd_from_mrlc(bbox, width, height, layer, epsg, **kwargs)]. *)
Definition nlcd_from_mrlc (bbox : list pyval) (width height layer epsg : pyval)
    (kwargs : list (string * pyval)) : Py value :=
  let params := update_all (nlcd_params bbox width height layer epsg) kwargs in
  r ← http_get NLCD_BASE_URL params;
  img ← imread_bytes (Some "tiff") r;
  img ← remap_stage img;
  mret (VRef img).

End Fetchers.

(** ** Values computed, as functions of the input's value *)

(** The array left in [cover_colors] by the [for cov in ...] loop. *)
Fixpoint paint_all (im : ndarray Z) (covs : list Z) (cc : ndarray Q)
  : exn + ndarray Q :=
  match covs with
  | [] => inr cc
  | cov :: covs' =>
      match color_of cov with
      | inl e => inl e
      | inr rgb =>
          match setitem_mask cc (eq_scalar im cov) rgb with
          | inl e => inl e
          | inr cc' => paint_all im covs' cc'
          end
      end
  end.

(** The array returned by [colorize_landcover] (see [colorize_run]). *)
Definition colorize_value (im : ndarray Z) : exn + ndarray Z :=
  match shape_index (shape im) 0 with
  | inl e => inl e
  | inr h =>
      match shape_index (shape im) 1 with
      | inl e => inl e
      | inr w =>
          match paint_all im (unique_sorted (data im))
                  (np_zeros 0%Q [h; w; 3]) with
          | inl e => inl e
          | inr cc => inr (astype_uint8 (mul_scalar cc 255%Q))
          end
      end
  end.

(** The keys of the palette. *)
Definition palette_keys : list Z := [0; 1; 2; 3; 4; 5; 255]%Z.

(** The palette colour of a class code, each component scaled by 255 and
    truncated to an integer. *)
Definition rgb_of (p : Z) : list Z :=
  match COLOR_MAP !! p with
  | Some c => map (λ x, trunc_uint8 (Qmult x 255%Q)) c
  | None => []
  end.

(** The colour a pixel has in [cover_colors] once the loop has gone through
    [covs], when it had colour [g p] before. *)
Definition painted (covs : list Z) (g : Z → list Q) : Z → list Q :=
  foldl (λ g cov p, if (p =? cov)%Z then default [] (COLOR_MAP !! cov) else g p)
        g covs.

(** [w'] comes from [w] by allocating objects and by updating objects at
    addresses from [n] on; requests and output are those of [w]. *)
Definition keeps (n : nat) (w w' : world) : Prop :=
  take n (heap w') = take n (heap w)
  ∧ length (heap w) ≤ length (heap w')
  ∧ sent w' = sent w
  ∧ stdout w' = stdout w.

(** The lookup array that [nlcd_from_mrlc] builds in [mapping_ar]
    (see [mapping_ar_built]). *)
Definition mapping_ar_value : ndarray Z :=
  NdArray [22]
    [0; 1; 1; 5; 5; 5; 5; 4; 4; 2; 2; 2; 3; 3; 3; 3; 3; 3; 3; 3; 2; 3]%Z.

(** The array returned by the remap stage (see [remap_stage_run]). *)
Definition remap_value (im : ndarray Z) : exn + ndarray Z :=
  getitem_index mapping_ar_value im.

(** The remap table as the specification words it: water/ice {1,2} to 1,
    developed {3,4,5,6} to 5, barren/shore {7,8} to 4, forest {9,10,11,20}
    to 2, scrub/grass/crops {12,...,19,21} to 3, and any code 0 or at least
    22 to 0. *)
Definition remap_table_spec (c : Z) : Z :=
  if decide (c ∈ [1; 2]%Z) then 1
  else if decide (c ∈ [3; 4; 5; 6]%Z) then 5
  else if decide (c ∈ [7; 8]%Z) then 4
  else if decide (c ∈ [9; 10; 11; 20]%Z) then 2
  else if decide (c ∈ [12; 13; 14; 15; 16; 17; 18; 19; 21]%Z) then 3
  else 0.

(** The target classes. *)
Definition target_classes : list Z := [0; 1; 2; 3; 4; 5]%Z.

(** One pixel through the lookup array. *)
Definition lut (p : Z) : option Z :=
  j ← index_in (length (data mapping_ar_value)) p; data mapping_ar_value !! j.

(** Stand-ins for the two collaborators, used to run the fetchers on
    concrete inputs: a transport that always fails, a decoder that always
    fails, a transport that answers with a given body, a decoder that yields
    a given raster. *)
Definition no_transport : nat → request → exn + bytes :=
  λ _ _, inl TransportError.

Definition no_decoder : option string → bytes → exn + ndarray Z :=
  λ _ _, inl DecodeError.

Definition answer (body : bytes) : nat → request → exn + bytes :=
  λ _ _, inr body.

Definition decode_to (im : ndarray Z) : option string → bytes → exn + ndarray Z :=
  λ _ _, inr im.

Definition empty_world : world := World [] [] [].

(** The line [naip2016_from_orgeo] prints when it gives up. *)
Definition failure_message (num_retries : Z) : string :=
  "Failed to get image after " ++ pretty num_retries ++ " retries.".

(** A transport that fails its first [k] calls and then answers [body]. *)
Definition flaky (k : nat) (body : bytes) : nat → request → exn + bytes :=
  λ n _, if n <? k then inl TransportError else inr body.

(** The values a palette component takes, and the samples they become. *)
Definition palette_components : list Q := [0%Q; (3#8)%Q; (1#2)%Q; 1%Q].

Definition sample_values : list Z := [0; 95; 127; 255]%Z.

(** A source code as the lookup array sees it: a negative index counts from
    the end of the 22 entries. *)
Definition wrap_index (p : Z) : Z := if (p <? 0)%Z then (p + 22)%Z else p.

(** ** Running the monad *)

Lemma bind_run {A B} (m : Py A) (f : A → Py B) w :
  (m ≫= f) w =
  match m w with
  | (Return a, w') => f a w'
  | (Raise e, w') => (Raise e, w')
  | (OutOfFuel, w') => (OutOfFuel, w')
  end.
Proof. reflexivity. Qed.

Lemma run_alloc {B} o (f : nat → Py B) w :
  (alloc o ≫= f) w =
  f (length (heap w)) (World (heap w ++ [o]) (sent w) (stdout w)).
Proof. reflexivity. Qed.

Lemma run_load_int {B} a x (f : ndarray Z → Py B) w :
  heap w !! a = Some (IntArr x) → (load_int a ≫= f) w = f x w.
Proof.
  intros H. unfold load_int, load. rewrite !bind_run, H. reflexivity.
Qed.

Lemma run_load_bool {B} a x (f : ndarray bool → Py B) w :
  heap w !! a = Some (BoolArr x) → (load_bool a ≫= f) w = f x w.
Proof.
  intros H. unfold load_bool, load. rewrite !bind_run, H. reflexivity.
Qed.

Lemma run_load_float {B} a x (f : ndarray Q → Py B) w :
  heap w !! a = Some (FloatArr x) → (load_float a ≫= f) w = f x w.
Proof.
  intros H. unfold load_float, load. rewrite !bind_run, H. reflexivity.
Qed.

Lemma run_lift_inr {A B} (a : A) (f : A → Py B) w :
  (lift (inr a) ≫= f) w = f a w.
Proof. reflexivity. Qed.

Lemma run_lift_inl {A B} e (f : A → Py B) w :
  (lift (inl e) ≫= f) w = (Raise e, w).
Proof. reflexivity. Qed.

Lemma run_store {B} a o (f : unit → Py B) w :
  (store a o ≫= f) w = f () (World (<[a := o]> (heap w)) (sent w) (stdout w)).
Proof. reflexivity. Qed.

(** A failing load leaves the world as it is. *)
Lemma load_int_fail a w :
  (∀ x, heap w !! a ≠ Some (IntArr x)) →
  ∀ {B} (f : ndarray Z → Py B), (load_int a ≫= f) w = (Raise TypeError, w).
Proof.
  intros H B f. unfold load_int, load. rewrite !bind_run.
  destruct (heap w !! a) as [[x| |]|] eqn:E; try reflexivity.
  exfalso. by apply (H x).
Qed.

(** ** The palette *)

Lemma COLOR_MAP_dom : dom COLOR_MAP = list_to_set palette_keys.
Proof. by vm_compute. Qed.

Lemma COLOR_MAP_keys p : is_Some (COLOR_MAP !! p) ↔ p ∈ palette_keys.
Proof.
  rewrite <- elem_of_dom, COLOR_MAP_dom. apply elem_of_list_to_set.
Qed.

Lemma COLOR_MAP_None p : COLOR_MAP !! p = None ↔ p ∉ palette_keys.
Proof.
  rewrite <- COLOR_MAP_keys, eq_None_not_Some. done.
Qed.

(** Every palette entry has three components. *)
Lemma COLOR_MAP_length p c : COLOR_MAP !! p = Some c → length c = 3.
Proof.
  intros H. assert (Hp : p ∈ palette_keys) by (apply COLOR_MAP_keys; eauto).
  unfold palette_keys in Hp. rewrite !elem_of_cons, elem_of_nil in Hp.
  destruct_or!; subst; try done; vm_compute in H; by simplify_eq.
Qed.

Lemma color_of_inr cov rgb :
  color_of cov = inr rgb → COLOR_MAP !! cov = Some rgb ∧ length rgb = 3.
Proof.
  unfold color_of. destruct (COLOR_MAP !! cov) eqn:E; [|done].
  intros [= <-]. eauto using COLOR_MAP_length.
Qed.

Lemma rgb_of_table :
  rgb_of 0 = [255; 255; 255]%Z ∧ rgb_of 1 = [0; 0; 255]%Z ∧
  rgb_of 2 = [0; 127; 0]%Z ∧ rgb_of 3 = [127; 255; 127]%Z ∧
  rgb_of 4 = [127; 95; 95]%Z ∧ rgb_of 5 = [0; 0; 0]%Z ∧
  rgb_of 255 = [255; 0; 0]%Z.
Proof. by vm_compute. Qed.

(** ** numpy operations: basic facts *)

Lemma insert_sorted_elem x y l : y ∈ insert_sorted x l ↔ y = x ∨ y ∈ l.
Proof.
  induction l as [|z l IH]; simpl.
  - rewrite list_elem_of_singleton, elem_of_nil. tauto.
  - destruct (Z.ltb_spec x z); [by rewrite elem_of_cons|].
    destruct (Z.eqb_spec x z) as [->|].
    + rewrite elem_of_cons. tauto.
    + rewrite !elem_of_cons, IH. tauto.
Qed.

Lemma unique_sorted_elem y l : y ∈ unique_sorted l ↔ y ∈ l.
Proof.
  induction l as [|x l IH]; simpl; [done|].
  rewrite insert_sorted_elem, elem_of_cons, IH. done.
Qed.

Lemma insert_sorted_sorted x l :
  StronglySorted Z.lt l → StronglySorted Z.lt (insert_sorted x l).
Proof.
  induction 1 as [|y l Hs IH Hy]; simpl.
  - repeat constructor.
  - destruct (Z.ltb_spec x y) as [Hlt|Hge].
    + constructor; [by constructor|]. constructor; [done|].
      eapply Forall_impl; [exact Hy|]. intros z ?. by etrans.
    + destruct (Z.eqb_spec x y) as [->|Hne]; [by constructor|].
      constructor; [done|]. apply Forall_forall. intros z Hz.
      apply insert_sorted_elem in Hz as [->|Hz]; [lia|].
      rewrite Forall_forall in Hy. auto.
Qed.

(** [unique_sorted] is what [np.unique] returns: the elements of the input,
    each once, in ascending order. *)
Lemma unique_sorted_sorted l : StronglySorted Z.lt (unique_sorted l).
Proof.
  induction l as [|x l IH]; simpl; [constructor|].
  by apply insert_sorted_sorted.
Qed.

Lemma setitem_mask_shape cc m rgb cc' :
  setitem_mask cc m rgb = inr cc' → shape cc' = shape cc.
Proof.
  unfold setitem_mask. repeat case_decide; intros [= <-]; done.
Qed.

Lemma paint_all_shape im covs : ∀ cc cc',
  paint_all im covs cc = inr cc' → shape cc' = shape cc.
Proof.
  induction covs as [|cov covs IH]; simpl; intros cc cc'.
  - by intros [= <-].
  - destruct (color_of cov) as [|rgb]; [done|].
    destruct (setitem_mask cc _ rgb) as [|cc1] eqn:E; [done|].
    intros H. rewrite (IH _ _ H). eauto using setitem_mask_shape.
Qed.

(** On a 2-D raster the mask selects whole pixels of [cover_colors]. *)
Lemma setitem_mask_rows h w cc (m : ndarray bool) rgb :
  shape cc = [h; w; 3] → shape m = [h; w] → length rgb = 3 →
  setitem_mask cc m rgb =
  inr (NdArray [h; w; 3] (fill_rows 3 (data m) (data cc) rgb)).
Proof.
  intros Hcc Hm Hrgb. unfold setitem_mask. rewrite Hcc, Hm, Hrgb.
  rewrite decide_False by done.
  rewrite decide_True by done.
  rewrite decide_True by done. done.
Qed.

Lemma fill_rows_flat_map n cov row (g : Z → list Q) pix :
  (∀ p, length (g p) = n) →
  fill_rows n (map (λ x, (x =? cov)%Z) pix) (flat_map g pix) row =
  flat_map (λ p, if (p =? cov)%Z then row else g p) pix.
Proof.
  intros Hg. induction pix as [|p pix IH]; simpl; [done|].
  rewrite take_app_length', drop_app_length' by done.
  by rewrite IH.
Qed.

Lemma painted_length covs : ∀ g,
  (∀ p, length (g p) = 3) →
  Forall (λ c, is_Some (COLOR_MAP !! c)) covs →
  ∀ p, length (painted covs g p) = 3.
Proof.
  induction covs as [|cov covs IH]; intros g Hg Hc p; simpl; [done|].
  inversion_clear Hc as [|? ? [c Hcov] Hc']. apply IH; [|done].
  intros q. destruct (q =? cov)%Z; [|done].
  rewrite Hcov. simpl. eauto using COLOR_MAP_length.
Qed.

Lemma painted_elem covs : ∀ g p,
  p ∈ covs → painted covs g p = default [] (COLOR_MAP !! p).
Proof.
  induction covs as [|cov covs IH] using rev_ind; intros g p Hp.
  - by apply elem_of_nil in Hp.
  - unfold painted in *. rewrite foldl_app. simpl.
    destruct (Z.eqb_spec p cov) as [->|Hne]; [done|].
    apply IH. apply elem_of_app in Hp as [|Hp]; [done|].
    apply list_elem_of_singleton in Hp. done.
Qed.

(** The loop on a 2-D raster whose distinct values all have a colour. *)
Lemma paint_all_rank2 h w (im : ndarray Z) covs : ∀ g,
  shape im = [h; w] →
  (∀ p, length (g p) = 3) →
  Forall (λ c, is_Some (COLOR_MAP !! c)) covs →
  paint_all im covs (NdArray [h; w; 3] (flat_map g (data im))) =
  inr (NdArray [h; w; 3] (flat_map (painted covs g) (data im))).
Proof.
  intros g Him. revert g.
  induction covs as [|cov covs IH]; intros g Hg Hc; simpl; [done|].
  inversion_clear Hc as [|? ? [c Hcov] Hc'].
  unfold color_of. rewrite Hcov.
  rewrite (setitem_mask_rows h w) by eauto using COLOR_MAP_length.
  simpl. rewrite fill_rows_flat_map by done.
  rewrite IH; [|intros p; destruct (p =? cov)%Z; eauto using COLOR_MAP_length|done].
  done.
Qed.

(** The loop on a 2-D raster in general: it either paints every value or
    stops at the first value without a colour. *)
Lemma paint_all_rank2_cases h w (im : ndarray Z) covs : ∀ cc,
  shape im = [h; w] → shape cc = [h; w; 3] →
  (∃ cc', paint_all im covs cc = inr cc') ∨
  (∃ c, c ∈ covs ∧ COLOR_MAP !! c = None ∧
        paint_all im covs cc = inl (KeyError c)).
Proof.
  intros cc Him. revert cc.
  induction covs as [|cov covs IH]; intros cc Hcc; simpl; [eauto|].
  unfold color_of. destruct (COLOR_MAP !! cov) as [rgb|] eqn:Hcov.
  - rewrite (setitem_mask_rows h w) by eauto using COLOR_MAP_length.
    destruct (IH (NdArray [h; w; 3]
                    (fill_rows 3 (data (eq_scalar im cov)) (data cc) rgb)))
      as [?|(c & ? & ? & ?)]; [done|by left|].
    right. exists c. by rewrite elem_of_cons; eauto.
  - right. exists cov. rewrite elem_of_cons. eauto.
Qed.

(** Whatever the rank, a value without a colour stops the loop. *)
Lemma paint_all_bad im covs : ∀ cc c,
  c ∈ covs → COLOR_MAP !! c = None →
  ∃ e, paint_all im covs cc = inl e.
Proof.
  induction covs as [|cov covs IH]; intros cc c Hc Hbad; simpl.
  - by apply elem_of_nil in Hc.
  - unfold color_of. destruct (COLOR_MAP !! cov) as [rgb|] eqn:Hcov; [|eauto].
    destruct (setitem_mask cc _ rgb); [eauto|].
    apply elem_of_cons in Hc as [->|Hc]; [congruence|]. eauto.
Qed.

Lemma replicate_flat_map {A B} (x : B) (l : list A) n :
  length l = n →
  replicate (n * (3 * 1)) x = flat_map (λ _, [x; x; x]) l.
Proof.
  intros <-. induction l as [|a l IH]; simpl; [done|]. by rewrite <- IH.
Qed.

Lemma map_flat_map {A B C} (f : B → C) (g : A → list B) l :
  map f (flat_map g l) = flat_map (λ x, map f (g x)) l.
Proof.
  induction l as [|a l IH]; simpl; [done|]. by rewrite map_app, IH.
Qed.

Lemma flat_map_ext_elem {A B} (f g : A → list B) l :
  (∀ x, x ∈ l → f x = g x) → flat_map f l = flat_map g l.
Proof.
  induction l as [|a l IH]; simpl; intros H; [done|].
  rewrite H by apply list_elem_of_here.
  rewrite IH; [done|]. intros x Hx. apply H. by apply list_elem_of_further.
Qed.

(** ** The colorizer on the heap *)

Lemma keeps_refl n w : keeps n w w.
Proof. by unfold keeps. Qed.

Lemma keeps_trans n w1 w2 w3 : keeps n w1 w2 → keeps n w2 w3 → keeps n w1 w3.
Proof. unfold keeps. intros (?&?&?&?) (?&?&?&?). repeat split; try congruence; lia. Qed.

Lemma keeps_lookup n w w' a :
  keeps n w w' → a < n → heap w' !! a = heap w !! a.
Proof.
  intros (Ht & _) Ha.
  rewrite <- (lookup_take_lt (heap w') n a), <- (lookup_take_lt (heap w) n a) by done.
  by rewrite Ht.
Qed.

Lemma keeps_alloc n w o :
  n ≤ length (heap w) →
  keeps n w (World (heap w ++ [o]) (sent w) (stdout w)).
Proof.
  intros Hn. unfold keeps. simpl. rewrite take_app_le, length_app by done.
  repeat split; lia.
Qed.

Lemma keeps_store n w c o :
  n ≤ c →
  keeps n w (World (<[c := o]> (heap w)) (sent w) (stdout w)).
Proof.
  intros Hn. unfold keeps. simpl. rewrite take_insert_ge, length_insert by done.
  done.
Qed.

(** One iteration of the loop. *)
Lemma paint_run img c cov im cc w :
  heap w !! img = Some (IntArr im) →
  heap w !! c = Some (FloatArr cc) →
  let w1 := World (heap w ++ [BoolArr (eq_scalar im cov)]) (sent w) (stdout w) in
  paint img c cov w =
  match color_of cov with
  | inl e => (Raise e, w1)
  | inr rgb =>
      match setitem_mask cc (eq_scalar im cov) rgb with
      | inl e => (Raise e, w1)
      | inr cc' =>
          (Return (),
           World (<[c := FloatArr cc']> (heap w1)) (sent w) (stdout w))
      end
  end.
Proof.
  intros Him Hc w1. unfold paint.
  rewrite (run_load_int _ _ _ _ Him), run_alloc. fold w1.
  assert (Hc1 : heap w1 !! c = Some (FloatArr cc)).
  { simpl. rewrite lookup_app_l; [done|]. eauto using lookup_lt_Some. }
  assert (Hm1 : heap w1 !! length (heap w) = Some (BoolArr (eq_scalar im cov))).
  { simpl. by rewrite list_lookup_middle. }
  destruct (color_of cov) as [e|rgb]; [done|].
  rewrite run_lift_inr, (run_load_float _ _ _ _ Hc1), (run_load_bool _ _ _ _ Hm1).
  destruct (setitem_mask cc (eq_scalar im cov) rgb) as [e|cc']; done.
Qed.

(** The loop: it computes [paint_all] into [cover_colors] and touches no
    object below [n]. *)
Lemma for_each_paint_run img c im n covs : ∀ cc w,
  img < n → n ≤ c →
  heap w !! img = Some (IntArr im) →
  heap w !! c = Some (FloatArr cc) →
  ∃ w', keeps n w w' ∧
    match paint_all im covs cc with
    | inl e => for_each covs (paint img c) w = (Raise e, w')
    | inr cc' =>
        for_each covs (paint img c) w = (Return (), w') ∧
        heap w' !! c = Some (FloatArr cc')
    end.
Proof.
  induction covs as [|cov covs IH]; intros cc w Himg Hn Him Hc; simpl.
  - exists w. split; [apply keeps_refl|done].
  - rewrite bind_run, (paint_run _ _ _ _ _ _ Him Hc).
    assert (Hlen : n ≤ length (heap w)).
    { apply lookup_lt_Some in Hc. lia. }
    destruct (color_of cov) as [e|rgb].
    { eexists. split; [|done]. by apply keeps_alloc. }
    destruct (setitem_mask cc (eq_scalar im cov) rgb) as [e|cc1].
    { eexists. split; [|done]. by apply keeps_alloc. }
    set (w2 := World _ _ _).
    assert (Hk : keeps n w w2).
    { eapply keeps_trans; [by apply (keeps_alloc n w)|].
      by apply (keeps_store n (World _ _ _)). }
    destruct (IH cc1 w2) as (w' & Hk' & Hrun); [done|done| | |].
    { rewrite (keeps_lookup n w w2) by done. done. }
    { subst w2. simpl. apply list_lookup_insert_eq.
      rewrite length_app. apply lookup_lt_Some in Hc. lia. }
    exists w'. split; [by eapply keeps_trans|done].
Qed.

(** [colorize_landcover] computes [colorize_value] into a new array and
    leaves every object of the initial heap as it was. *)
Lemma colorize_run img im w :
  heap w !! img = Some (IntArr im) →
  ∃ w', keeps (length (heap w)) w w' ∧
    match colorize_value im with
    | inl e => colorize_landcover img w = (Raise e, w')
    | inr out =>
        ∃ r, colorize_landcover img w = (Return (VRef r), w') ∧
             length (heap w) ≤ r ∧
             heap w' !! r = Some (IntArr out)
    end.
Proof.
  intros Him. unfold colorize_landcover, colorize_value.
  rewrite (run_load_int _ _ _ _ Him).
  destruct (shape_index (shape im) 0) as [e|h].
  { exists w. split; [apply keeps_refl|done]. }
  rewrite run_lift_inr.
  destruct (shape_index (shape im) 1) as [e|wd].
  { exists w. split; [apply keeps_refl|done]. }
  rewrite run_lift_inr, !run_alloc. simpl heap. simpl sent. simpl stdout.
  set (n := length (heap w)).
  set (w2 := World _ _ _).
  assert (Hlt : img < n) by eauto using lookup_lt_Some.
  assert (H2 : keeps n w w2).
  { eapply keeps_trans; [by apply (keeps_alloc n w)|].
    apply (keeps_alloc n (World _ _ _)). simpl. rewrite length_app. lia. }
  assert (Hu : heap w2 !! length (heap w ++ [FloatArr (np_zeros 0%Q [h; wd; 3])])
               = Some (IntArr (np_unique im))).
  { subst w2. simpl. by rewrite list_lookup_middle. }
  rewrite (run_load_int _ _ _ _ Hu), bind_run.
  destruct (for_each_paint_run img n im n (data (np_unique im))
              (np_zeros 0%Q [h; wd; 3]) w2) as (w3 & H3 & Hrun); [done|done| | |].
  { by rewrite (keeps_lookup n w w2). }
  { subst w2. simpl. rewrite lookup_app_l by (rewrite length_app; simpl; lia).
    by rewrite list_lookup_middle. }
  change (data (np_unique im)) with (unique_sorted (data im)) in *.
  destruct (paint_all im (unique_sorted (data im)) (np_zeros 0%Q [h; wd; 3]))
    as [e|cc].
  { rewrite Hrun. exists w3. split; [by eapply keeps_trans|done]. }
  destruct Hrun as [-> Hcc].
  rewrite (run_load_float _ _ _ _ Hcc), run_alloc.
  set (w4 := World _ _ _).
  assert (Hs : heap w4 !! length (heap w3) = Some (FloatArr (mul_scalar cc 255%Q))).
  { subst w4. simpl. by rewrite list_lookup_middle. }
  rewrite (run_load_float _ _ _ _ Hs), run_alloc.
  assert (Hn3 : n ≤ length (heap w3)).
  { destruct H3 as (_ & ? & _), H2 as (_ & ? & _). lia. }
  eexists. split; [|eexists; split; [done|split]].
  - eapply keeps_trans; [exact H2|]. eapply keeps_trans; [exact H3|].
    eapply keeps_trans; [by apply (keeps_alloc n w3)|].
    apply (keeps_alloc n w4). subst w4. simpl. rewrite length_app. lia.
  - subst w4. simpl. rewrite length_app. lia.
  - simpl. by rewrite list_lookup_middle.
Qed.

(** ** Well-formedness of the arrays computed *)

Lemma fill_true_length mask : ∀ dat vals,
  length (fill_true mask dat vals) = length dat.
Proof.
  induction mask as [|b m IH]; intros [|x d] vals; simpl; try done.
  destruct b; [destruct vals|]; simpl; by rewrite IH.
Qed.

Lemma fill_rows_length n row mask : ∀ dat,
  length row = n → n * length mask ≤ length dat →
  length (fill_rows n mask dat row) = length dat.
Proof.
  induction mask as [|b m IH]; intros dat Hrow Hlen; simpl in *; [done|].
  rewrite length_app, IH by (rewrite ?length_drop; lia).
  rewrite length_drop.
  destruct b; [|rewrite length_take]; lia.
Qed.

Lemma size_of_snoc shp n : size_of (shp ++ [n]) = size_of shp * n.
Proof.
  induction shp as [|k shp IH]; simpl; [lia|].
  unfold size_of in *. simpl. rewrite IH. lia.
Qed.

Lemma size_of_removelast shp :
  shp ≠ [] → size_of shp = size_of (removelast shp) * List.last shp 0.
Proof.
  intros H. destruct (exists_last H) as (l & a & ->).
  by rewrite removelast_last, last_last, size_of_snoc.
Qed.

Lemma setitem_mask_wf cc (m : ndarray bool) rgb cc' :
  wf_array cc → wf_array m →
  setitem_mask cc m rgb = inr cc' → wf_array cc'.
Proof.
  unfold wf_array, setitem_mask. intros Hcc Hm.
  repeat case_decide; intros [= <-]; simpl.
  - by rewrite fill_true_length.
  - destruct_and!. rewrite fill_rows_length; [done|done|].
    rewrite Hcc, Hm. rewrite (size_of_removelast (shape cc)) by done.
    replace (shape m) with (removelast (shape cc)) by done. lia.
Qed.

Lemma paint_all_wf im covs : ∀ cc cc',
  wf_array im → wf_array cc →
  paint_all im covs cc = inr cc' → wf_array cc'.
Proof.
  induction covs as [|cov covs IH]; simpl; intros cc cc' Him Hcc.
  - by intros [= <-].
  - destruct (color_of cov) as [|rgb]; [done|].
    destruct (setitem_mask cc _ rgb) as [|cc1] eqn:E; [done|].
    apply IH; [done|]. eapply setitem_mask_wf; [done| |exact E].
    unfold wf_array, eq_scalar in *. simpl. by rewrite length_map.
Qed.

(** The shape of what the colorizer returns, whatever the rank of the
    input. *)
Lemma colorize_value_shape im out :
  colorize_value im = inr out →
  ∃ h wd rest, shape im = h :: wd :: rest ∧ shape out = [h; wd; 3]
               ∧ (wf_array im → wf_array out).
Proof.
  unfold colorize_value, shape_index.
  destruct (shape im) as [|h [|wd rest]] eqn:Hs; simpl; try done.
  destruct (paint_all _ _ _) as [|cc] eqn:Hp; [done|]. intros [= <-].
  exists h, wd, rest. split; [done|]. simpl.
  rewrite (paint_all_shape _ _ _ _ Hp). split; [done|]. intros Him.
  assert (Hcc : wf_array cc).
  { eapply paint_all_wf; [done| |exact Hp].
    unfold wf_array, np_zeros. simpl. by rewrite length_replicate. }
  unfold wf_array, astype_uint8, mul_scalar in *. simpl.
  by rewrite !length_map.
Qed.

(** A 2-D raster of palette values. *)
Lemma colorize_value_rank2 im h wd :
  shape im = [h; wd] → wf_array im →
  Forall (λ p, p ∈ palette_keys) (data im) →
  colorize_value im = inr (NdArray [h; wd; 3] (flat_map rgb_of (data im))).
Proof.
  intros Hs Hwf Hkeys. unfold colorize_value. rewrite Hs. simpl.
  unfold np_zeros.
  replace (size_of [h; wd; 3]) with (length (data im) * (3 * 1)).
  2:{ rewrite Hwf, Hs. unfold size_of. simpl. lia. }
  rewrite (replicate_flat_map 0%Q (data im)) by done.
  assert (Hcovs : Forall (λ c, is_Some (COLOR_MAP !! c)) (unique_sorted (data im))).
  { apply Forall_forall. intros c Hc. apply COLOR_MAP_keys.
    rewrite unique_sorted_elem in Hc. rewrite Forall_forall in Hkeys. auto. }
  rewrite (paint_all_rank2 h wd im _ (λ _, [0%Q; 0%Q; 0%Q]) Hs (λ _, eq_refl) Hcovs).
  unfold astype_uint8, mul_scalar. simpl. f_equal. f_equal.
  rewrite !map_flat_map. apply flat_map_ext_elem. intros p Hp.
  rewrite painted_elem by by apply unique_sorted_elem.
  unfold rgb_of. destruct (COLOR_MAP !! p); simpl; [|done].
  by rewrite map_map.
Qed.

(** A 2-D raster: the colorizer succeeds exactly when every value has a
    colour, and otherwise raises [KeyError] on an offending value. *)
Lemma colorize_value_rank2_cases im h wd :
  shape im = [h; wd] →
  (∃ out, colorize_value im = inr out) ∨
  (∃ c, c ∈ data im ∧ (c ∉ palette_keys) ∧ colorize_value im = inl (KeyError c)).
Proof.
  intros Hs. unfold colorize_value. rewrite Hs. simpl.
  destruct (paint_all_rank2_cases h wd im (unique_sorted (data im))
              (np_zeros 0%Q [h; wd; 3])) as [[cc ->]|(c & Hc & Hbad & ->)];
    [done|done|eauto|].
  right. exists c. rewrite <- COLOR_MAP_None.
  by rewrite unique_sorted_elem in Hc.
Qed.

Lemma colorize_value_bad im x :
  x ∈ data im → x ∉ palette_keys → ∃ e, colorize_value im = inl e.
Proof.
  intros Hx Hbad. unfold colorize_value.
  destruct (shape_index (shape im) 0); [eauto|].
  destruct (shape_index (shape im) 1); [eauto|].
  destruct (paint_all_bad im (unique_sorted (data im))
              (np_zeros 0%Q [n; n0; 3]) x) as [e ->]; eauto.
  - by apply unique_sorted_elem.
  - by apply COLOR_MAP_None.
Qed.

Lemma flat_map_lookup3 {A B} (f : A → list B) l : ∀ k p ch,
  (∀ x, x ∈ l → length (f x) = 3) →
  l !! k = Some p → ch < 3 →
  flat_map f l !! (3 * k + ch) = f p !! ch.
Proof.
  induction l as [|a l IH]; intros k p ch Hlen Hk Hch; [done|].
  change (flat_map f (a :: l)) with (f a ++ flat_map f l).
  destruct k as [|k]; simpl in Hk.
  - injection Hk as ->. rewrite lookup_app_l; [f_equal; lia|].
    rewrite Hlen by apply list_elem_of_here. lia.
  - rewrite lookup_app_r by (rewrite Hlen by apply list_elem_of_here; lia).
    rewrite Hlen by apply list_elem_of_here.
    replace (3 * S k + ch - 3) with (3 * k + ch) by lia.
    apply IH; [|done|done]. intros x Hx. apply Hlen. by apply list_elem_of_further.
Qed.

Lemma rgb_of_length p : p ∈ palette_keys → length (rgb_of p) = 3.
Proof.
  intros [c Hc]%COLOR_MAP_keys. unfold rgb_of. rewrite Hc, length_map.
  eauto using COLOR_MAP_length.
Qed.

Lemma flat_map_replicate {A B} (f : A → list B) n x :
  flat_map f (replicate n x) = concat (replicate n (f x)).
Proof. induction n as [|n IH]; simpl; [done|]. by rewrite IH. Qed.

(** A non-empty 3-D input whose trailing dimension is not 3 is never
    accepted: the mask has the shape of [img], which does not fit
    [cover_colors]. *)
Lemma colorize_rank3_mismatch im h wd c :
  shape im = [h; wd; c] → c ≠ 3 → data im ≠ [] →
  ∃ e, colorize_value im = inl e.
Proof.
  intros Hs Hc Hne. unfold colorize_value. rewrite Hs. simpl.
  destruct (unique_sorted (data im)) as [|cov covs] eqn:Hu.
  { destruct (data im) as [|x l] eqn:Hd; [done|].
    assert (x ∈ unique_sorted (x :: l)) as Hx
      by (apply unique_sorted_elem, list_elem_of_here).
    rewrite Hu in Hx. by apply elem_of_nil in Hx. }
  simpl. destruct (color_of cov) as [e|rgb]; [eauto|].
  unfold setitem_mask. simpl. rewrite Hs.
  rewrite decide_False by (intros [=]; done).
  rewrite decide_False by (intros [_ [=]]). eauto.
Qed.

(** Two 3-D inputs: one whose mask does not fit, one whose first value sits
    on two positions where three values are assigned. *)
Lemma colorize_rank3_count :
  (colorize_landcover 0 (World [IntArr (NdArray [1; 1; 2] [0; 1]%Z)] [] [])).1
  = Raise IndexError
  ∧ (colorize_landcover 0
       (World [IntArr (NdArray [1; 1; 3] [0; 0; 7]%Z)] [] [])).1
    = Raise ValueError.
Proof. by vm_compute. Qed.

(** ** The colorizer: results *)

(** C2.  A 2-D raster whose values all lie in {0,1,2,3,4,5,255} is colorized
    successfully; the output holds, for every pixel, the palette colour of the
    pixel's value with each component scaled by 255 and truncated to an
    integer ([rgb_of], whose seven values are listed).  In particular a raster
    entirely of value 1 gives an output entirely of (0,0,255), and a raster
    entirely of value 255 gives (255,0,0). *)
Theorem colorize_palette_colors img im h wd w :
  heap w !! img = Some (IntArr im) →
  shape im = [h; wd] →
  wf_array im →
  Forall (λ p, p ∈ palette_keys) (data im) →
  ∃ r w' out,
    colorize_landcover img w = (Return (VRef r), w')
    ∧ heap w' !! r = Some (IntArr out)
    ∧ shape out = [h; wd; 3]
    ∧ data out = flat_map rgb_of (data im)
    ∧ (∀ k p ch, data im !! k = Some p → ch < 3 →
         data out !! (3 * k + ch) = rgb_of p !! ch)
    ∧ (rgb_of 0 = [255; 255; 255] ∧ rgb_of 1 = [0; 0; 255] ∧
       rgb_of 2 = [0; 127; 0] ∧ rgb_of 3 = [127; 255; 127] ∧
       rgb_of 4 = [127; 95; 95] ∧ rgb_of 5 = [0; 0; 0] ∧
       rgb_of 255 = [255; 0; 0])%Z
    ∧ (data im = replicate (h * wd) 1%Z →
         data out = concat (replicate (h * wd) [0; 0; 255]%Z))
    ∧ (data im = replicate (h * wd) 255%Z →
         data out = concat (replicate (h * wd) [255; 0; 0]%Z)).
Proof.
  intros Him Hs Hwf Hkeys.
  destruct (colorize_run img im w Him) as (w' & _ & Hrun).
  rewrite (colorize_value_rank2 im h wd Hs Hwf Hkeys) in Hrun.
  destruct Hrun as (r & Hrun & _ & Hr).
  exists r, w', (NdArray [h; wd; 3] (flat_map rgb_of (data im))).
  repeat split; try done; simpl.
  - intros k p ch Hk Hch. apply flat_map_lookup3; [|done|done].
    intros x Hx. apply rgb_of_length. rewrite Forall_forall in Hkeys. auto.
  - intros ->. by rewrite flat_map_replicate.
  - intros ->. by rewrite flat_map_replicate.
Qed.

(** C4.  Whenever [colorize_landcover] accepts its input, that is returns,
    the output has the height and the width of the input and exactly three
    channels, whatever the rank and the trailing dimensions of the input; the
    output is a well-formed array when the input is.  Every 2-D raster of
    palette values is accepted. *)
Theorem colorize_shape img im w :
  heap w !! img = Some (IntArr im) →
  (∀ v w', colorize_landcover img w = (Return v, w') →
     ∃ r h wd rest out,
       v = VRef r ∧ shape im = h :: wd :: rest ∧
       heap w' !! r = Some (IntArr out) ∧ shape out = [h; wd; 3] ∧
       (wf_array im → wf_array out))
  ∧ (∀ h wd, shape im = [h; wd] →
       Forall (λ p, p ∈ palette_keys) (data im) →
       ∃ r w', colorize_landcover img w = (Return (VRef r), w')).
Proof.
  intros Him. destruct (colorize_run img im w Him) as (w1 & _ & Hrun). split.
  - intros v w' Hret.
    destruct (colorize_value im) as [e|out] eqn:Hv; [congruence|].
    destruct Hrun as (r & Hrun & _ & Hr). rewrite Hrun in Hret.
    injection Hret as <- <-.
    destruct (colorize_value_shape im out Hv) as (h & wd & rest & ? & ? & ?).
    by exists r, h, wd, rest, out.
  - intros h wd Hs Hkeys.
    destruct (colorize_value_rank2_cases im h wd Hs)
      as [[out Hv]|(c & Hc & Hbad & _)].
    + rewrite Hv in Hrun. destruct Hrun as (r & Hrun & _). eauto.
    + rewrite Forall_forall in Hkeys. exfalso. auto.
Qed.

(** C8.  A raster holding a value outside the palette keys makes
    [colorize_landcover] raise instead of returning an image; on a 2-D raster
    the exception is the [KeyError] of the lookup [COLOR_MAP[cov]] for an
    offending value of the raster. *)
Theorem colorize_unknown_value_fails img im w x :
  heap w !! img = Some (IntArr im) →
  x ∈ data im →
  x ∉ palette_keys →
  ∃ e w',
    colorize_landcover img w = (Raise e, w')
    ∧ (length (shape im) = 2 →
       ∃ c, e = KeyError c ∧ c ∈ data im ∧ (c ∉ palette_keys)).
Proof.
  intros Him Hx Hbad.
  destruct (colorize_run img im w Him) as (w' & _ & Hrun).
  destruct (colorize_value_bad im x Hx Hbad) as [e He].
  rewrite He in Hrun. exists e, w'. split; [done|].
  intros Hrank. destruct (shape im) as [|h [|wd [|]]] eqn:Hs; try done.
  destruct (colorize_value_rank2_cases im h wd Hs)
    as [[out Hv]|(c & Hc & Hc' & Hv)]; [congruence|].
  exists c. split; [congruence|done].
Qed.

(** C10.  [colorize_landcover] leaves its input array unchanged: every object
    of the heap it is started in, the input among them, is the same
    afterwards, whether it returns or raises; it issues no request and prints
    nothing; the array it returns is a new one. *)
Theorem colorize_input_unchanged img w :
  heap (colorize_landcover img w).2 !! img = heap w !! img
  ∧ heap w `prefix_of` heap (colorize_landcover img w).2
  ∧ sent (colorize_landcover img w).2 = sent w
  ∧ stdout (colorize_landcover img w).2 = stdout w
  ∧ ∀ r, (colorize_landcover img w).1 = Return (VRef r) → heap w !! r = None.
Proof.
  destruct (heap w !! img) as [o|] eqn:Him.
  2:{ unfold colorize_landcover. rewrite load_int_fail by congruence.
      simpl. rewrite Him. done. }
  destruct o as [im| |].
  2,3: unfold colorize_landcover; rewrite load_int_fail by congruence;
       simpl; rewrite Him; done.
  destruct (colorize_run img im w Him) as (w' & Hk & Hrun).
  assert (Hw' : (colorize_landcover img w).2 = w').
  { destruct (colorize_value im); [by rewrite Hrun|].
    destruct Hrun as (r & -> & _). done. }
  rewrite Hw'. destruct Hk as (Ht & Hlen & Hs & Ho).
  rewrite firstn_all in Ht.
  repeat split; try done.
  - transitivity (take (length (heap w)) (heap w') !! img); [|by rewrite Ht].
    symmetry. apply lookup_take_lt. eauto using lookup_lt_Some.
  - rewrite <- Ht at 1. apply prefix_take.
  - intros r Hr. destruct (colorize_value im); [by rewrite Hrun in Hr|].
    destruct Hrun as (r' & Hrun' & Hge & _). rewrite Hrun' in Hr.
    injection Hr as <-. by apply lookup_ge_None.
Qed.

(** ** The remap stage *)

Lemma amax_keys : amax (np_array_uint8 (REMAP.*1)) = inr 21%Z.
Proof. reflexivity. Qed.

Lemma mapping_ar_built :
  setitem_index (np_zeros 0%Z [Z.to_nat (21 + 1)])
    (np_array_uint8 (REMAP.*1)) (np_array_uint8 (REMAP.*2))
  = inr mapping_ar_value.
Proof. by vm_compute. Qed.

Lemma insert_snoc {A} (l : list A) x y : <[length l := x]> (l ++ [y]) = l ++ [x].
Proof.
  rewrite insert_app_r_alt by done. by rewrite Nat.sub_diag.
Qed.

Ltac heap_lookup :=
  simpl;
  repeat first
    [ by apply list_lookup_middle
    | rewrite lookup_app_l by (rewrite ?length_app; simpl; lia) ];
  done.

Lemma remap_stage_run img im w :
  heap w !! img = Some (IntArr im) →
  let built := [IntArr (np_array_uint8 (REMAP.*1));
                IntArr (np_array_uint8 (REMAP.*2));
                IntArr mapping_ar_value] in
  remap_stage img w =
  match remap_value im with
  | inl e => (Raise e, World (heap w ++ built) (sent w) (stdout w))
  | inr out =>
      (Return (length (heap w) + 3),
       World (heap w ++ built ++ [IntArr out]) (sent w) (stdout w))
  end.
Proof.
  intros Him built. unfold remap_stage.
  rewrite !run_alloc.
  rewrite (run_load_int _ (np_array_uint8 (REMAP.*1))) by heap_lookup.
  rewrite amax_keys, run_lift_inr, run_alloc.
  rewrite (run_load_int _ (np_zeros 0%Z [Z.to_nat (21 + 1)])) by heap_lookup.
  rewrite (run_load_int _ (np_array_uint8 (REMAP.*1))) by heap_lookup.
  rewrite (run_load_int _ (np_array_uint8 (REMAP.*2))) by heap_lookup.
  rewrite mapping_ar_built, run_lift_inr, run_store.
  cbn [heap sent stdout]. rewrite insert_snoc.
  rewrite (run_load_int _ mapping_ar_value) by heap_lookup.
  rewrite (run_load_int _ im).
  2:{ apply lookup_lt_Some in Him as Hlt. cbn [heap]. 
      rewrite !lookup_app_l by (rewrite ?length_app; simpl; lia). done. }
  fold (remap_value im). destruct (remap_value im) as [e|out].
  - rewrite run_lift_inl. cbn [heap sent stdout]. subst built.
    by rewrite <- !app_assoc.
  - rewrite run_lift_inr. unfold alloc. cbn [heap sent stdout]. subst built.
    rewrite !length_app. simpl. rewrite <- !app_assoc. simpl.
    do 2 f_equal. lia.
Qed.

Lemma lut_in_range p : (0 ≤ p ≤ 21)%Z → lut p = Some (remap_table_spec p).
Proof.
  intros Hp.
  assert (p ∈ (λ k, Z.of_nat k) <$> seq 0 22) as Hin.
  { apply list_elem_of_fmap. exists (Z.to_nat p). split; [lia|].
    apply elem_of_seq. lia. }
  simpl in Hin. rewrite !elem_of_cons, elem_of_nil in Hin.
  destruct_or!; subst; try done.
Qed.

Lemma lut_out_of_range p : (22 ≤ p)%Z → lut p = None.
Proof.
  intros Hp. unfold lut, index_in. simpl length.
  rewrite !decide_False by lia. done.
Qed.

Lemma lut_target p y : lut p = Some y → y ∈ target_classes.
Proof.
  unfold lut. intros H.
  destruct (index_in _ p) as [j|]; [simpl in H|done].
  assert (Hall : Forall (λ y, y ∈ target_classes) (data mapping_ar_value)).
  { unfold target_classes. simpl. repeat constructor. }
  rewrite Forall_lookup in Hall. eauto.
Qed.

Lemma remap_value_in_range im :
  Forall (λ p, 0 ≤ p ≤ 21)%Z (data im) →
  remap_value im = inr (NdArray (shape im) (map remap_table_spec (data im))).
Proof.
  intros H. unfold remap_value, getitem_index. fold lut.
  replace (mapM lut (data im)) with (Some (map remap_table_spec (data im))); [done|].
  symmetry. apply mapM_Some. apply Forall2_fmap_r, Forall_Forall2_diag.
  eapply Forall_impl; [exact H|]. intros p Hp. by apply lut_in_range.
Qed.

Lemma remap_value_out_of_range im p :
  p ∈ data im → (22 ≤ p)%Z → remap_value im = inl IndexError.
Proof.
  intros Hin Hp. unfold remap_value, getitem_index. fold lut.
  replace (mapM lut (data im)) with (@None (list Z)); [done|].
  symmetry. apply mapM_None. apply Exists_exists. exists p.
  split; [done|]. by apply lut_out_of_range.
Qed.

Lemma remap_value_target im out :
  remap_value im = inr out →
  shape out = shape im ∧ Forall (λ y, y ∈ target_classes) (data out).
Proof.
  unfold remap_value, getitem_index. fold lut.
  destruct (mapM lut (data im)) as [l|] eqn:E; [|done]. intros [= <-].
  split; [done|]. simpl. apply mapM_Some in E.
  induction E as [|p y l k Hp _ IH]; constructor; eauto using lut_target.
Qed.

Lemma target_classes_palette y : y ∈ target_classes → y ∈ palette_keys.
Proof.
  unfold target_classes, palette_keys. rewrite !elem_of_cons, !elem_of_nil.
  tauto.
Qed.

(** C1, as the code has it.  The remap stage maps every source code 1-21 to
    the target of the table and code 0 to 0: a raster of codes 0-21 is
    returned remapped pixel by pixel through [remap_table_spec].  A raster
    that holds a code of 22 or more is not remapped: indexing the 22-entry
    lookup array raises [IndexError]. *)
Theorem remap_table img im w :
  heap w !! img = Some (IntArr im) →
  (Forall (λ p, 0 ≤ p ≤ 21)%Z (data im) →
     ∃ r w', remap_stage img w = (Return r, w') ∧
       heap w' !! r =
       Some (IntArr (NdArray (shape im) (map remap_table_spec (data im)))))
  ∧ (∀ p, p ∈ data im → (22 ≤ p)%Z →
       ∃ w', remap_stage img w = (Raise IndexError, w')).
Proof.
  intros Him. pose proof (remap_stage_run img im w Him) as Hrun.
  cbv zeta in Hrun. split.
  - intros Hr. rewrite (remap_value_in_range im Hr) in Hrun.
    eexists _, _. split; [exact Hrun|]. simpl.
    rewrite lookup_app_r by lia.
    by replace (length (heap w) + 3 - length (heap w)) with 3 by lia.
  - intros p Hin Hp. rewrite (remap_value_out_of_range im p Hin Hp) in Hrun.
    eauto.
Qed.

(** C1 as stated fails: a raster holding code 22, which the claim sends to 0,
    is rejected with [IndexError]. *)
Lemma remap_rejects_code_22 :
  (remap_stage 0 (World [IntArr (NdArray [1; 1] [22%Z])] [] [])).1
  = Raise IndexError
  ∧ remap_table_spec 22 = 0%Z.
Proof. by vm_compute. Qed.

(** ** The fetchers: results *)

Lemma update_all_notin kwargs : ∀ (params : gmap string pyval) k,
  k ∉ kwargs.*1 → update_all params kwargs !! k = params !! k.
Proof.
  induction kwargs as [|[k' v'] kwargs IH]; intros params k Hk; [done|].
  simpl in *. rewrite not_elem_of_cons in Hk. destruct Hk as [Hne Hk].
  unfold update_all in *. simpl. rewrite IH by done.
  by rewrite lookup_insert_ne.
Qed.

(** Last writer wins: after the merge, a key of [kwargs] holds the value
    [kwargs] gives it, whether a default had that key or not. *)
Lemma update_all_lookup kwargs : ∀ (params : gmap string pyval) k v,
  NoDup (kwargs.*1) → (k, v) ∈ kwargs →
  update_all params kwargs !! k = Some v.
Proof.
  induction kwargs as [|[k' v'] kwargs IH]; intros params k v Hnd Hin.
  - by apply elem_of_nil in Hin.
  - simpl in Hnd. apply NoDup_cons in Hnd as [Hk' Hnd].
    apply elem_of_cons in Hin as [[= -> ->]|Hin].
    + unfold update_all. simpl. fold (update_all (<[k':=v']> params) kwargs).
      rewrite update_all_notin by done. apply lookup_insert_eq.
    + unfold update_all. simpl. fold (update_all (<[k':=v']> params) kwargs).
      by apply IH.
Qed.

Section FetcherFacts.

Variable requests_get : nat → request → exn + bytes.
Variable imread : option string → bytes → exn + ndarray Z.

Lemma http_get_run {B} url params (f : bytes → Py B) w :
  (http_get requests_get url params ≫= f) w =
  let w1 := World (heap w) (sent w ++ [(url, params)]) (stdout w) in
  match requests_get (length (sent w)) (url, params) with
  | inl e => (Raise e, w1)
  | inr body => f body w1
  end.
Proof.
  rewrite bind_run. unfold http_get.
  by destruct (requests_get _ _).
Qed.

(** What [nlcd_from_mrlc] does, case by case. *)
Lemma nlcd_run bbox width height layer epsg kwargs w :
  let req := (NLCD_BASE_URL,
              update_all (nlcd_params bbox width height layer epsg) kwargs) in
  let w1 := World (heap w) (sent w ++ [req]) (stdout w) in
  nlcd_from_mrlc requests_get imread bbox width height layer epsg kwargs w =
  match requests_get (length (sent w)) req with
  | inl e => (Raise e, w1)
  | inr body =>
      match imread (Some "tiff") body with
      | inl e => (Raise e, w1)
      | inr im =>
          (remap_stage (length (heap w)) ≫= λ r, mret (VRef r))
            (World (heap w ++ [IntArr im]) (sent w1) (stdout w))
      end
  end.
Proof.
  intros req w1. unfold nlcd_from_mrlc. rewrite http_get_run. fold req.
  cbv zeta. fold w1.
  destruct (requests_get (length (sent w)) req) as [e|body]; [done|].
  unfold imread_bytes.
  destruct (imread (Some "tiff") body) as [e|im]; [done|].
  by rewrite bind_run.
Qed.

Lemma nlcd_run_decoded bbox width height layer epsg kwargs w body im :
  let req := (NLCD_BASE_URL,
              update_all (nlcd_params bbox width height layer epsg) kwargs) in
  requests_get (length (sent w)) req = inr body →
  imread (Some "tiff") body = inr im →
  let built := [IntArr im;
                IntArr (np_array_uint8 (REMAP.*1));
                IntArr (np_array_uint8 (REMAP.*2));
                IntArr mapping_ar_value] in
  nlcd_from_mrlc requests_get imread bbox width height layer epsg kwargs w =
  match remap_value im with
  | inl e =>
      (Raise e, World (heap w ++ built) (sent w ++ [req]) (stdout w))
  | inr out =>
      (Return (VRef (length (heap w) + 4)),
       World (heap w ++ built ++ [IntArr out]) (sent w ++ [req]) (stdout w))
  end.
Proof.
  intros req Hget Hread built. rewrite nlcd_run. fold req.
  rewrite Hget, Hread, bind_run.
  rewrite (remap_stage_run _ im) by (simpl; by rewrite list_lookup_middle).
  cbn [heap sent stdout]. subst built.
  destruct (remap_value im) as [e|out].
  - by rewrite <- app_assoc.
  - rewrite length_app, <- app_assoc. simpl.
    unfold mret, py_ret. do 3 f_equal. lia.
Qed.

(** C7.  When the transport or the decoding of [nlcd_from_mrlc] fails with
    [e], the call raises [e] itself: one request has been made, no second
    one follows, and nothing else has changed.  Moreover the function never
    returns [None], whatever happens. *)
Theorem nlcd_failure_propagates bbox width height layer epsg kwargs w e :
  let req := (NLCD_BASE_URL,
              update_all (nlcd_params bbox width height layer epsg) kwargs) in
  fetch_fails requests_get imread (Some "tiff") (length (sent w)) req e →
  nlcd_from_mrlc requests_get imread bbox width height layer epsg kwargs w
  = (Raise e, World (heap w) (sent w ++ [req]) (stdout w))
  ∧ ∀ w0,
      (nlcd_from_mrlc requests_get imread bbox width height layer epsg
         kwargs w0).1 ≠ Return VNone.
Proof.
  intros req Hfail. split.
  - rewrite nlcd_run. fold req.
    destruct Hfail as [->|(body & -> & ->)]; done.
  - intros w0. rewrite nlcd_run. cbv zeta.
    destruct (requests_get _ _) as [?|body]; [done|].
    destruct (imread _ body) as [?|im]; [done|].
    rewrite bind_run. by destruct (remap_stage _ _) as [[r| |] w1].
Qed.

(** C9.  Whenever [nlcd_from_mrlc] returns, it returns an array of the
    shape of the decoded raster whose every pixel is one of 0,1,2,3,4,5,
    hence a key of the colorizer's palette. *)
Theorem nlcd_result_palette_safe bbox width height layer epsg kwargs w v w' :
  nlcd_from_mrlc requests_get imread bbox width height layer epsg kwargs w
  = (Return v, w') →
  ∃ r out,
    v = VRef r ∧ heap w' !! r = Some (IntArr out)
    ∧ Forall (λ p, p ∈ target_classes) (data out)
    ∧ Forall (λ p, p ∈ palette_keys) (data out).
Proof.
  rewrite nlcd_run. cbv zeta.
  destruct (requests_get _ _) as [?|body] eqn:Hget; [done|].
  destruct (imread _ body) as [?|im] eqn:Hread; [done|].
  rewrite bind_run.
  rewrite (remap_stage_run _ im) by (simpl; by rewrite list_lookup_middle).
  destruct (remap_value im) as [?|out] eqn:Hv; [done|].
  intros [= <- <-]. exists (length (heap w ++ [IntArr im]) + 3), out.
  destruct (remap_value_target im out Hv) as [_ Ht].
  repeat split; [|done|].
  - cbn [heap]. rewrite lookup_app_r by lia.
    by replace (_ + 3 - _) with 3 by lia.
  - eapply Forall_impl; [exact Ht|]. apply target_classes_palette.
Qed.

(** C6.  When the response decodes to a raster holding only the value 9,
    [nlcd_from_mrlc] returns a raster holding only the value 2, and
    [colorize_landcover] turns that raster into an image holding only the
    colour (0,127,0). *)
Theorem forest_end_to_end bbox width height layer epsg kwargs w body h wd :
  let req := (NLCD_BASE_URL,
              update_all (nlcd_params bbox width height layer epsg) kwargs) in
  requests_get (length (sent w)) req = inr body →
  imread (Some "tiff") body = inr (NdArray [h; wd] (replicate (h * wd) 9%Z)) →
  ∃ r w1 r' w2,
    nlcd_from_mrlc requests_get imread bbox width height layer epsg kwargs w
    = (Return (VRef r), w1)
    ∧ heap w1 !! r = Some (IntArr (NdArray [h; wd] (replicate (h * wd) 2%Z)))
    ∧ colorize_landcover r w1 = (Return (VRef r'), w2)
    ∧ heap w2 !! r' =
      Some (IntArr (NdArray [h; wd; 3]
                      (concat (replicate (h * wd) [0; 127; 0]%Z)))).
Proof.
  intros req Hget Hread.
  pose proof (nlcd_run_decoded bbox width height layer epsg kwargs w body _
                Hget Hread) as Hrun. cbv zeta in Hrun.
  rewrite remap_value_in_range in Hrun.
  2:{ simpl. apply Forall_forall. intros p ->%elem_of_replicate_inv. lia. }
  simpl in Hrun. rewrite (fmap_replicate remap_table_spec) in Hrun.
  change (remap_table_spec 9) with 2%Z in Hrun.
  set (forest := NdArray [h; wd] (replicate (h * wd) 2%Z)) in *.
  match type of Hrun with _ = (_, ?w1) =>
    assert (Hr : heap w1 !! (length (heap w) + 4) = Some (IntArr forest)) end.
  { cbn [heap]. rewrite lookup_app_r by lia.
    by replace (_ + 4 - _) with 4 by lia. }
  destruct (colorize_run _ forest _ Hr) as (w2 & _ & Hcol).
  rewrite (colorize_value_rank2 forest h wd) in Hcol.
  - destruct Hcol as (r' & Hcol & _ & Hr').
    eexists _, _, r', w2. repeat split; [exact Hrun|exact Hr|exact Hcol|].
    rewrite Hr'. simpl. by rewrite flat_map_replicate.
  - done.
  - unfold wf_array. simpl. rewrite length_replicate. unfold size_of. simpl. lia.
  - simpl. apply Forall_forall. intros p ->%elem_of_replicate_inv.
    unfold palette_keys. rewrite !elem_of_cons. tauto.
Qed.

(** One failing attempt: the request is logged, [retries] goes down by
    one and [img] stays [None]. *)
Lemma attempt_fails_run params retries w e :
  fetch_fails requests_get imread None (length (sent w))
    (NAIP_BASE_URL, params) e →
  try_except
    (r ← http_get requests_get NAIP_BASE_URL params;
     i ← imread_bytes imread None r;
     mret (retries, VRef i))
    (mret ((retries - 1)%Z, VNone)) w
  = (Return ((retries - 1)%Z, VNone),
     World (heap w) (sent w ++ [(NAIP_BASE_URL, params)]) (stdout w)).
Proof.
  intros Hfail. unfold try_except. rewrite http_get_run. cbv zeta.
  destruct Hfail as [->|(body & -> & Hread)]; [done|].
  unfold imread_bytes. rewrite Hread. done.
Qed.

(** The loop when every attempt fails: [retries] attempts, then exit. *)
Lemma retry_loop_all_fail params : ∀ fuel retries w,
  Z.to_nat retries ≤ fuel →
  (∀ n, length (sent w) ≤ n →
        ∃ e, fetch_fails requests_get imread None n (NAIP_BASE_URL, params) e) →
  retry_loop requests_get imread fuel params retries VNone w
  = (Return (Z.min retries 0, VNone),
     World (heap w)
       (sent w ++ replicate (Z.to_nat retries) (NAIP_BASE_URL, params))
       (stdout w)).
Proof.
  induction fuel as [|fuel IH]; intros retries w Hfuel Hfail.
  - simpl. rewrite decide_False by (intros [? _]; lia).
    replace (Z.to_nat retries) with 0 by lia. simpl.
    rewrite app_nil_r, Z.min_l by lia. by destruct w.
  - simpl. case_decide as Hc.
    + destruct (Hfail (length (sent w))) as [e He]; [done|].
      rewrite bind_run, (attempt_fails_run _ _ _ e He). cbn [fst snd].
      rewrite IH; cbn [heap sent stdout].
      * replace (Z.to_nat retries) with (S (Z.to_nat (retries - 1))) by lia.
        simpl. rewrite <- app_assoc. simpl.
        by rewrite !Z.min_r by lia.
      * lia.
      * intros n Hn. apply Hfail. rewrite length_app in Hn. lia.
    + assert (retries ≤ 0)%Z by (apply Z.nlt_ge; tauto).
      replace (Z.to_nat retries) with 0 by lia. simpl.
      rewrite app_nil_r, Z.min_l by lia. by destruct w.
Qed.

(** Every request the loop makes carries the same parameters. *)
Lemma retry_loop_sent params : ∀ fuel retries img w,
  ∃ m, sent (retry_loop requests_get imread fuel params retries img w).2
       = sent w ++ replicate m (NAIP_BASE_URL, params)
     ∧ (0 < fuel → (0 < retries)%Z → img = VNone → 0 < m).
Proof.
  induction fuel as [|fuel IH]; intros retries img w; simpl.
  - case_decide; exists 0; simpl; rewrite app_nil_r; (split; [done|lia]).
  - case_decide as Hc.
    2:{ exists 0. simpl. rewrite app_nil_r. split; [done|]. tauto. }
    rewrite bind_run. unfold try_except. rewrite http_get_run. cbv zeta.
    set (w1 := World _ (sent w ++ _) _).
    assert (Hstep : ∀ st w2, sent w2 = sent w1 →
      ∃ m, sent (retry_loop requests_get imread fuel params st.1 st.2 w2).2
           = sent w ++ replicate m (NAIP_BASE_URL, params) ∧ 0 < m).
    { intros st w2 Hw2. destruct (IH st.1 st.2 w2) as (m & Hm & _).
      exists (S m). rewrite Hm, Hw2. subst w1. simpl.
      rewrite <- app_assoc. split; [done|lia]. }
    destruct (requests_get _ _) as [e|body].
    { destruct (Hstep ((retries - 1)%Z, img) w1 eq_refl) as (m & Hm & ?).
      exists m. split; [exact Hm|done]. }
    unfold imread_bytes.
    destruct (imread None body) as [e|im].
    { destruct (Hstep ((retries - 1)%Z, img) w1 eq_refl) as (m & Hm & ?).
      exists m. split; [exact Hm|done]. }
    simpl.
    destruct (Hstep (retries, VRef (length (heap w)))
                (World (heap w ++ [IntArr im]) (sent w1) (stdout w)) eq_refl)
      as (m & Hm & ?).
    exists m. split; [exact Hm|done].
Qed.

(** The loop ends within [retries] iterations whatever the attempts do:
    with that much fuel the model never runs out. *)
Lemma retry_loop_fuel params : ∀ fuel retries img w,
  img ≠ VNone ∨ Z.to_nat retries ≤ fuel →
  (retry_loop requests_get imread fuel params retries img w).1 ≠ OutOfFuel.
Proof.
  induction fuel as [|fuel IH]; intros retries img w Hfuel; simpl.
  - rewrite decide_False; [done|]. intros [? ->]. destruct Hfuel; [done|lia].
  - case_decide as Hc; [|done]. destruct Hc as [Hpos ->].
    rewrite bind_run. unfold try_except. rewrite http_get_run. cbv zeta.
    destruct (requests_get _ _) as [e|body].
    { apply IH. right. simpl. destruct Hfuel; [done|lia]. }
    unfold imread_bytes. destruct (imread None body) as [e|im].
    { apply IH. right. simpl. destruct Hfuel; [done|lia]. }
    apply IH. by left.
Qed.

Lemma naip_fuel fuel bbox width height epsg num_retries kwargs w :
  Z.to_nat num_retries ≤ fuel →
  (naip2016_from_orgeo requests_get imread fuel bbox width height epsg
     num_retries kwargs w).1 ≠ OutOfFuel.
Proof.
  intros Hfuel. unfold naip2016_from_orgeo. rewrite bind_run.
  pose proof (retry_loop_fuel
                (update_all (naip_params bbox width height epsg) kwargs)
                fuel num_retries VNone w (or_intror Hfuel)) as Hloop.
  destruct (retry_loop _ _ _ _ _ _ _) as [[[rt [|a]]|e|] w1]; done.
Qed.

Lemma naip_sent fuel bbox width height epsg num_retries kwargs w :
  let params := update_all (naip_params bbox width height epsg) kwargs in
  ∃ m, sent (naip2016_from_orgeo requests_get imread fuel bbox width height
               epsg num_retries kwargs w).2
       = sent w ++ replicate m (NAIP_BASE_URL, params)
     ∧ (0 < fuel → (0 < num_retries)%Z → 0 < m).
Proof.
  intros params. unfold naip2016_from_orgeo. fold params. rewrite bind_run.
  destruct (retry_loop_sent params fuel num_retries VNone w) as (m & Hm & Hpos).
  exists m. split; [|auto].
  destruct (retry_loop _ _ _ _ _ _ _) as [[[rt [|a]]|e|] w1]; exact Hm.
Qed.

(** C3.  When every attempt fails, in the transport or in the decoding,
    [naip2016_from_orgeo] makes exactly [num_retries] attempts, the first
    one included, all with the same request; it then prints its message and
    returns [None] instead of raising. *)
Theorem naip_retry_bound fuel bbox width height epsg num_retries kwargs w :
  let req := (NAIP_BASE_URL,
              update_all (naip_params bbox width height epsg) kwargs) in
  (0 ≤ num_retries)%Z →
  Z.to_nat num_retries ≤ fuel →
  (∀ n, length (sent w) ≤ n →
        ∃ e, fetch_fails requests_get imread None n req e) →
  ∃ w',
    naip2016_from_orgeo requests_get imread fuel bbox width height epsg
      num_retries kwargs w = (Return VNone, w')
    ∧ sent w' = sent w ++ replicate (Z.to_nat num_retries) req
    ∧ Z.of_nat (length (sent w')) = (Z.of_nat (length (sent w)) + num_retries)%Z
    ∧ heap w' = heap w
    ∧ stdout w' =
      stdout w ++ [("Failed to get image after " ++ pretty num_retries ++
                    " retries.")%string].
Proof.
  intros req Hpos Hfuel Hfail. unfold naip2016_from_orgeo. fold req.
  rewrite bind_run, retry_loop_all_fail by done. cbn [fst snd].
  eexists. split; [reflexivity|]. cbn [heap sent stdout].
  repeat split. rewrite length_app, length_replicate. lia.
Qed.

(** C5.  A parameter passed in [kwargs] reaches the service with the
    caller's value, also when its key is one of the defaults: every request
    [naip2016_from_orgeo] makes, and the one request [nlcd_from_mrlc] makes,
    holds the caller's value under that key. *)
Theorem kwargs_override kwargs k v :
  NoDup (kwargs.*1) →
  (k, v) ∈ kwargs →
  (∀ fuel bbox width height epsg num_retries w,
     ∃ m reqs,
       sent (naip2016_from_orgeo requests_get imread fuel bbox width height
               epsg num_retries kwargs w).2 = sent w ++ reqs
       ∧ length reqs = m
       ∧ Forall (λ r : request, r.2 !! k = Some v) reqs
       ∧ (0 < fuel → (0 < num_retries)%Z → 0 < m))
  ∧ (∀ bbox width height layer epsg w,
       ∃ r : request,
         sent (nlcd_from_mrlc requests_get imread bbox width height layer
                 epsg kwargs w).2 = sent w ++ [r]
         ∧ r.2 !! k = Some v).
Proof.
  intros Hnd Hin. split.
  - intros fuel bbox width height epsg num_retries w.
    destruct (naip_sent fuel bbox width height epsg num_retries kwargs w)
      as (m & Hm & Hpos).
    exists m, (replicate m (NAIP_BASE_URL,
                 update_all (naip_params bbox width height epsg) kwargs)).
    repeat split; [done|by rewrite length_replicate| |done].
    apply Forall_forall. intros r ->%elem_of_replicate_inv.
    by apply update_all_lookup.
  - intros bbox width height layer epsg w.
    exists (NLCD_BASE_URL,
            update_all (nlcd_params bbox width height layer epsg) kwargs).
    split; [|by apply update_all_lookup].
    rewrite nlcd_run. cbv zeta.
    destruct (requests_get _ _) as [?|body]; [done|].
    destruct (imread _ body) as [?|im]; [done|].
    rewrite bind_run.
    rewrite (remap_stage_run _ im) by (simpl; by rewrite list_lookup_middle).
    by destruct (remap_value im).
Qed.

End FetcherFacts.

(** ** The results on concrete inputs *)

(** [remap_table] on a 2x3 raster of codes 0, 1, 9, 21, 20, 7. *)
Lemma remap_table_witness :
  let im := NdArray [2; 3] [0; 1; 9; 21; 20; 7]%Z in
  let w := World [IntArr im] [] [] in
  heap w !! 0 = Some (IntArr im)
  ∧ ∃ r w', remap_stage 0 w = (Return r, w')
      ∧ heap w' !! r = Some (IntArr (NdArray [2; 3] [0; 1; 2; 3; 2; 4]%Z)).
Proof.
  intros im w. split; [reflexivity|].
  destruct (remap_table 0 im w eq_refl) as [Hok _].
  apply Hok. simpl. repeat constructor; lia.
Defined.

(** [colorize_palette_colors] on a 2x2 raster of values 1, 2, 255, 4. *)
Lemma colorize_palette_colors_witness :
  let im := NdArray [2; 2] [1; 2; 255; 4]%Z in
  let w := World [IntArr im] [] [] in
  ∃ r w' out,
    colorize_landcover 0 w = (Return (VRef r), w')
    ∧ heap w' !! r = Some (IntArr out)
    ∧ data out = [0; 0; 255; 0; 127; 0; 255; 0; 0; 127; 95; 95]%Z.
Proof.
  intros im w.
  destruct (colorize_palette_colors 0 im 2 2 w)
    as (r & w' & out & Hrun & Hr & _ & Hd & _).
  - reflexivity.
  - reflexivity.
  - reflexivity.
  - simpl. repeat constructor.
  - exists r, w', out. rewrite Hd. repeat split; assumption.
Defined.

(** [colorize_shape] on a 1x1x3 input that the colorizer accepts. *)
Lemma colorize_shape_witness :
  let im := NdArray [1; 1; 3] [1; 1; 1]%Z in
  let w := World [IntArr im] [] [] in
  ∃ r h wd rest out,
    VRef 5 = VRef r ∧ shape im = h :: wd :: rest
    ∧ heap (colorize_landcover 0 w).2 !! r = Some (IntArr out)
    ∧ shape out = [h; wd; 3]
    ∧ (wf_array im → wf_array out).
Proof.
  intros im w.
  destruct (colorize_shape 0 im w eq_refl) as [Hshape _].
  apply (Hshape (VRef 5) (colorize_landcover 0 w).2). reflexivity.
Defined.

(** [colorize_unknown_value_fails] on a 2x2 raster holding the value 7. *)
Lemma colorize_unknown_value_fails_witness :
  let im := NdArray [2; 2] [1; 2; 7; 4]%Z in
  let w := World [IntArr im] [] [] in
  ∃ e w',
    colorize_landcover 0 w = (Raise e, w')
    ∧ (length (shape im) = 2 →
       ∃ c, e = KeyError c ∧ c ∈ data im ∧ (c ∉ palette_keys)).
Proof.
  intros im w. apply (colorize_unknown_value_fails 0 im w 7%Z).
  - reflexivity.
  - simpl. repeat constructor.
  - unfold palette_keys. rewrite !elem_of_cons, elem_of_nil.
    intros H. repeat (destruct H as [H|H]; [discriminate H|]). exact H.
Defined.

(** [naip_retry_bound] with the default three retries and no transport. *)
Lemma naip_retry_bound_witness :
  ∃ w',
    naip2016_from_orgeo no_transport no_decoder 3
      [PyInt 0; PyInt 0; PyInt 10; PyInt 10] (PyInt 64) (PyInt 64)
      default_epsg default_num_retries [] empty_world = (Return VNone, w')
    ∧ length (sent w') = 3
    ∧ stdout w' = ["Failed to get image after 3 retries."%string].
Proof.
  destruct (naip_retry_bound no_transport no_decoder 3
              [PyInt 0; PyInt 0; PyInt 10; PyInt 10] (PyInt 64) (PyInt 64)
              default_epsg default_num_retries [] empty_world)
    as (w' & Hrun & Hsent & _ & _ & Hout).
  - unfold default_num_retries. lia.
  - unfold default_num_retries. simpl. lia.
  - intros n _. exists TransportError. left. reflexivity.
  - exists w'. split; [exact Hrun|]. rewrite Hsent, Hout. split; reflexivity.
Defined.

(** [kwargs_override] for [format], whose default is overridden. *)
Lemma kwargs_override_witness :
  naip_params [] (PyInt 64) (PyInt 64) default_epsg !! "format"%string
  = Some (PyStr "tiff")
  ∧ ∃ r : request,
      sent (nlcd_from_mrlc no_transport no_decoder [] (PyInt 64) (PyInt 64)
              default_layer default_epsg
              [("format"%string, PyStr "image/png")] empty_world).2 = [r]
      ∧ r.2 !! "format"%string = Some (PyStr "image/png").
Proof.
  split; [reflexivity|].
  destruct (kwargs_override no_transport no_decoder
              [("format"%string, PyStr "image/png")] "format"%string
              (PyStr "image/png")) as [_ Hnlcd].
  - simpl. apply NoDup_singleton.
  - apply list_elem_of_here.
  - apply (Hnlcd [] (PyInt 64) (PyInt 64) default_layer default_epsg empty_world).
Defined.

(** [forest_end_to_end] on a 1x2 raster. *)
Lemma forest_end_to_end_witness :
  ∃ r w1 r' w2,
    nlcd_from_mrlc (answer []) (decode_to (NdArray [1; 2] [9; 9]%Z))
      [] (PyInt 2) (PyInt 1) default_layer default_epsg
      [] empty_world = (Return (VRef r), w1)
    ∧ heap w1 !! r = Some (IntArr (NdArray [1; 2] [2; 2]%Z))
    ∧ colorize_landcover r w1 = (Return (VRef r'), w2)
    ∧ heap w2 !! r' =
      Some (IntArr (NdArray [1; 2; 3] [0; 127; 0; 0; 127; 0]%Z)).
Proof.
  apply (forest_end_to_end (answer []) (decode_to (NdArray [1; 2] [9; 9]%Z))
           [] (PyInt 2) (PyInt 1) default_layer default_epsg [] empty_world [] 1 2); reflexivity.
Defined.

(** [nlcd_failure_propagates] with no transport. *)
Lemma nlcd_failure_propagates_witness :
  ∃ req,
    nlcd_from_mrlc no_transport no_decoder [] (PyInt 2) (PyInt 1)
      default_layer default_epsg [] empty_world
    = (Raise TransportError, World [] [req] []).
Proof.
  eexists.
  apply (nlcd_failure_propagates no_transport no_decoder [] (PyInt 2)
           (PyInt 1) default_layer default_epsg []
           empty_world TransportError).
  left. reflexivity.
Defined.

(** [nlcd_result_palette_safe] on a decoded 1x3 raster of codes 9, 21, 0. *)
Lemma nlcd_result_palette_safe_witness :
  let run := nlcd_from_mrlc (answer []) (decode_to (NdArray [1; 3] [9; 21; 0]%Z))
               [] (PyInt 3) (PyInt 1) default_layer default_epsg [] empty_world in
  ∃ r out,
    VRef 4 = VRef r ∧ heap run.2 !! r = Some (IntArr out)
    ∧ Forall (λ p, p ∈ target_classes) (data out)
    ∧ Forall (λ p, p ∈ palette_keys) (data out).
Proof.
  intros run.
  apply (nlcd_result_palette_safe (answer [])
           (decode_to (NdArray [1; 3] [9; 21; 0]%Z))
           [] (PyInt 3) (PyInt 1) default_layer default_epsg [] empty_world (VRef 4) run.2).
  reflexivity.
Defined.

(** * Further properties of the three functions *)

(** ** The aerial fetcher *)

Section AerialFacts.

Variable requests_get : nat → request → exn + bytes.
Variable imread : option string → bytes → exn + ndarray Z.

(** Once [img] is set the loop is over, whatever the fuel. *)
Lemma retry_loop_done fuel params retries img w :
  img ≠ VNone →
  retry_loop requests_get imread fuel params retries img w
  = (Return (retries, img), w).
Proof.
  intros Himg. destruct fuel; simpl; rewrite decide_False; try done; tauto.
Qed.

Lemma retry_loop_exhausted fuel params retries w :
  (retries ≤ 0)%Z →
  retry_loop requests_get imread fuel params retries VNone w
  = (Return (retries, VNone), w).
Proof.
  intros Hr. destruct fuel; simpl; rewrite decide_False; try done; lia.
Qed.

(** One successful attempt. *)
Lemma attempt_succeeds_run params retries w body im :
  requests_get (length (sent w)) (NAIP_BASE_URL, params) = inr body →
  imread None body = inr im →
  try_except
    (r ← http_get requests_get NAIP_BASE_URL params;
     i ← imread_bytes imread None r;
     mret (retries, VRef i))
    (mret ((retries - 1)%Z, VNone)) w
  = (Return (retries, VRef (length (heap w))),
     World (heap w ++ [IntArr im])
       (sent w ++ [(NAIP_BASE_URL, params)]) (stdout w)).
Proof.
  intros Hget Hread. unfold try_except.
  rewrite (http_get_run requests_get). cbv zeta. rewrite Hget.
  unfold imread_bytes. rewrite Hread. reflexivity.
Qed.

(** The loop when the first [k] attempts fail and the next one succeeds. *)
Lemma retry_loop_succeeds params body im : ∀ k fuel retries w,
  k < fuel → (Z.of_nat k < retries)%Z →
  (∀ i, i < k →
     ∃ e, fetch_fails requests_get imread None (length (sent w) + i)
            (NAIP_BASE_URL, params) e) →
  requests_get (length (sent w) + k) (NAIP_BASE_URL, params) = inr body →
  imread None body = inr im →
  retry_loop requests_get imread fuel params retries VNone w
  = (Return ((retries - Z.of_nat k)%Z, VRef (length (heap w))),
     World (heap w ++ [IntArr im])
       (sent w ++ replicate (S k) (NAIP_BASE_URL, params)) (stdout w)).
Proof.
  induction k as [|k IH]; intros fuel retries w Hfuel Hk Hfail Hget Hread;
    (destruct fuel as [|fuel]; [lia|]); simpl retry_loop;
    rewrite decide_True by (split; [lia|done]); rewrite bind_run.
  - rewrite Nat.add_0_r in Hget.
    rewrite (attempt_succeeds_run _ _ _ body im Hget Hread). cbn [fst snd].
    rewrite retry_loop_done by done. by rewrite Z.sub_0_r.
  - destruct (Hfail 0) as [e He]; [lia|]. rewrite Nat.add_0_r in He.
    rewrite (attempt_fails_run requests_get imread _ _ _ e He). cbn [fst snd].
    rewrite IH; cbn [heap sent stdout].
    + rewrite <- app_assoc. simpl. do 3 f_equal. lia.
    + lia.
    + lia.
    + intros i Hi. destruct (Hfail (S i)) as [e' He']; [lia|]. exists e'.
      rewrite length_app. simpl.
      by replace (length (sent w) + 1 + i) with (length (sent w) + S i) by lia.
    + rewrite length_app. simpl.
      by replace (length (sent w) + 1 + k) with (length (sent w) + S k) by lia.
    + done.
Qed.

(** The loop in general: it never raises, makes at most [retries] attempts,
    and leaves [img] unset only when all of them were made. *)
Lemma retry_loop_outcome params : ∀ fuel retries w,
  Z.to_nat retries ≤ fuel →
  ∃ m rt v h',
    retry_loop requests_get imread fuel params retries VNone w
    = (Return (rt, v),
       World h' (sent w ++ replicate m (NAIP_BASE_URL, params)) (stdout w))
    ∧ m ≤ Z.to_nat retries
    ∧ (v = VNone → h' = heap w ∧ m = Z.to_nat retries)
    ∧ (∀ r, v = VRef r →
         r = length (heap w) ∧ 0 < m ∧ ∃ im, h' = heap w ++ [IntArr im]).
Proof.
  induction fuel as [|fuel IH]; intros retries w Hfuel.
  - exists 0, retries, VNone, (heap w).
    rewrite retry_loop_exhausted by lia. simpl. rewrite app_nil_r.
    split; [by destruct w|]. repeat split; try done; lia.
  - destruct (decide (0 < retries)%Z) as [Hpos|Hneg].
    2:{ exists 0, retries, VNone, (heap w).
        rewrite retry_loop_exhausted by lia. simpl. rewrite app_nil_r.
        split; [by destruct w|]. repeat split; try done; lia. }
    simpl retry_loop. rewrite decide_True by done. rewrite bind_run.
    destruct (requests_get (length (sent w)) (NAIP_BASE_URL, params))
      as [e|body] eqn:Hget;
      [|destruct (imread None body) as [e|im] eqn:Hread].
    1,2: (rewrite (attempt_fails_run requests_get imread _ _ _ e)
            by (first [by left | right; eauto]);
          cbn [fst snd];
          destruct (IH (retries - 1)%Z
                      (World (heap w) (sent w ++ [(NAIP_BASE_URL, params)])
                         (stdout w)))
            as (m & rt & v & h' & Hrun & Hm & Hnone & Hsome); [lia|];
          exists (S m), rt, v, h'; rewrite Hrun; cbn [heap sent stdout];
          rewrite <- app_assoc; split; [done|]; split; [lia|]; split;
          [intros Hv; destruct (Hnone Hv); split; [done|lia]
          |intros r Hv; destruct (Hsome r Hv) as (? & ? & ?);
           repeat split; [done|lia|done]]).
    rewrite (attempt_succeeds_run _ _ _ body im Hget Hread). cbn [fst snd].
    rewrite retry_loop_done by done.
    exists 1, retries, (VRef (length (heap w))), (heap w ++ [IntArr im]).
    split; [done|]. split; [lia|]. split; [done|].
    intros r [= <-]. repeat split; [lia|eauto].
Qed.

(** X1.  If the first [k] attempts fail and the next one succeeds, with
    [k] below [num_retries], [naip2016_from_orgeo] returns the raster decoded
    by that attempt as a new array, after exactly [k + 1] requests and without
    printing anything. *)
Theorem naip_succeeds_after_failures fuel bbox width height epsg num_retries
    kwargs w k body im :
  let req := (NAIP_BASE_URL,
              update_all (naip_params bbox width height epsg) kwargs) in
  k < fuel →
  (Z.of_nat k < num_retries)%Z →
  (∀ i, i < k →
     ∃ e, fetch_fails requests_get imread None (length (sent w) + i) req e) →
  requests_get (length (sent w) + k) req = inr body →
  imread None body = inr im →
  naip2016_from_orgeo requests_get imread fuel bbox width height epsg
    num_retries kwargs w
  = (Return (VRef (length (heap w))),
     World (heap w ++ [IntArr im]) (sent w ++ replicate (S k) req) (stdout w)).
Proof.
  intros req Hfuel Hk Hfail Hget Hread. unfold naip2016_from_orgeo. fold req.
  rewrite bind_run.
  by rewrite (retry_loop_succeeds _ body im k fuel num_retries w).
Qed.

(** X2.  With [num_retries] zero or negative [naip2016_from_orgeo] makes no
    request at all: it prints its message and returns [None]. *)
Theorem naip_no_retries fuel bbox width height epsg num_retries kwargs w :
  (num_retries ≤ 0)%Z →
  naip2016_from_orgeo requests_get imread fuel bbox width height epsg
    num_retries kwargs w
  = (Return VNone,
     World (heap w) (sent w) (stdout w ++ [failure_message num_retries])).
Proof.
  intros Hr. unfold naip2016_from_orgeo.
  by rewrite bind_run, retry_loop_exhausted.
Qed.

(** X3.  Whatever the service and the decoder do, [naip2016_from_orgeo]
    never raises: it returns after at most [num_retries] requests, all alike.
    It returns [None] only when all [num_retries] attempts were made, and then
    it has printed its message and allocated nothing; when it returns a raster,
    that is a new array, and nothing was printed. *)
Theorem naip_outcome fuel bbox width height epsg num_retries kwargs w :
  let req := (NAIP_BASE_URL,
              update_all (naip_params bbox width height epsg) kwargs) in
  Z.to_nat num_retries ≤ fuel →
  ∃ v w' m,
    naip2016_from_orgeo requests_get imread fuel bbox width height epsg
      num_retries kwargs w = (Return v, w')
    ∧ sent w' = sent w ++ replicate m req
    ∧ m ≤ Z.to_nat num_retries
    ∧ (v = VNone →
         m = Z.to_nat num_retries ∧ heap w' = heap w
         ∧ stdout w' = stdout w ++ [failure_message num_retries])
    ∧ (∀ r, v = VRef r →
         0 < m ∧ heap w !! r = None ∧ stdout w' = stdout w
         ∧ ∃ im, heap w' = heap w ++ [IntArr im] ∧ heap w' !! r = Some (IntArr im)).
Proof.
  intros req Hfuel. unfold naip2016_from_orgeo. fold req. rewrite bind_run.
  destruct (retry_loop_outcome
              (update_all (naip_params bbox width height epsg) kwargs)
              fuel num_retries w Hfuel)
    as (m & rt & v & h' & Hrun & Hm & Hnone & Hsome).
  fold req in Hrun. rewrite Hrun. cbn [fst snd]. destruct v as [|r].
  - destruct (Hnone eq_refl) as [-> ->].
    eexists VNone, _, _. split; [reflexivity|]. cbn [heap sent stdout].
    repeat split; try done.
  - destruct (Hsome r eq_refl) as (-> & Hpos & im & ->).
    eexists (VRef _), _, m. split; [reflexivity|]. cbn [heap sent stdout].
    split; [done|]. split; [done|]. split; [done|].
    intros r [= <-]. split; [done|]. split; [by apply lookup_ge_None|].
    split; [done|]. exists im. split; [done|]. by rewrite list_lookup_middle.
Qed.

End AerialFacts.

(** ** The parameters of the requests *)

Lemma update_all_dom kwargs : ∀ params : gmap string pyval,
  dom (update_all params kwargs) = dom params ∪ list_to_set (kwargs.*1).
Proof.
  induction kwargs as [|[k v] kwargs IH]; intros params; simpl.
  - unfold update_all. simpl. by rewrite (right_id_L ∅ (∪)).
  - unfold update_all in *. simpl. rewrite IH, dom_insert_L.
    by rewrite (assoc_L (∪)), (comm_L (∪) (dom params)).
Qed.

Lemma naip_params_dom bbox width height epsg :
  dom (naip_params bbox width height epsg) =
  list_to_set
    ["bbox"; "bboxSR"; "size"; "imageSR"; "format"; "pixelType"; "noData";
     "noDataInterpretation"; "interpolation"; "compression";
     "compressionQuality"; "bandIds"; "mosaicRule"; "renderingRule"; "f"]%string.
Proof. unfold naip_params. by rewrite dom_list_to_map_L. Qed.

Lemma nlcd_params_dom bbox width height layer epsg :
  dom (nlcd_params bbox width height layer epsg) =
  list_to_set ["bbox"; "crs"; "width"; "height"; "format"; "layers"]%string.
Proof. unfold nlcd_params. by rewrite dom_list_to_map_L. Qed.

Section LandCoverFacts.

Variable requests_get : nat → request → exn + bytes.
Variable imread : option string → bytes → exn + ndarray Z.

(** X4.  Extra parameters extend the defaults: in every request of either
    fetcher, a key the caller did not pass holds its default value (or is
    absent if it is no default), and the keys of the request are the default
    keys, fifteen for the aerial service and six for the land-cover service,
    together with the caller's keys. *)
Theorem request_keeps_defaults kwargs k :
  k ∉ kwargs.*1 →
  (∀ fuel bbox width height epsg num_retries w,
     ∃ m p,
       sent (naip2016_from_orgeo requests_get imread fuel bbox width height
               epsg num_retries kwargs w).2
       = sent w ++ replicate m (NAIP_BASE_URL, p)
       ∧ p !! k = naip_params bbox width height epsg !! k
       ∧ dom p =
         list_to_set
           ["bbox"; "bboxSR"; "size"; "imageSR"; "format"; "pixelType";
            "noData"; "noDataInterpretation"; "interpolation"; "compression";
            "compressionQuality"; "bandIds"; "mosaicRule"; "renderingRule";
            "f"]%string ∪ list_to_set (kwargs.*1))
  ∧ (∀ bbox width height layer epsg w,
       ∃ p,
         sent (nlcd_from_mrlc requests_get imread bbox width height layer
                 epsg kwargs w).2 = sent w ++ [(NLCD_BASE_URL, p)]
         ∧ p !! k = nlcd_params bbox width height layer epsg !! k
         ∧ dom p =
           list_to_set
             ["bbox"; "crs"; "width"; "height"; "format"; "layers"]%string
           ∪ list_to_set (kwargs.*1)).
Proof.
  intros Hk. split.
  - intros fuel bbox width height epsg num_retries w.
    destruct (naip_sent requests_get imread fuel bbox width height epsg
                num_retries kwargs w) as (m & Hm & _).
    exists m, (update_all (naip_params bbox width height epsg) kwargs).
    split; [exact Hm|]. split; [by apply update_all_notin|].
    by rewrite update_all_dom, naip_params_dom.
  - intros bbox width height layer epsg w.
    exists (update_all (nlcd_params bbox width height layer epsg) kwargs).
    split; [|split; [by apply update_all_notin|
                     by rewrite update_all_dom, nlcd_params_dom]].
    rewrite nlcd_run. cbv zeta.
    destruct (requests_get _ _) as [?|body]; [done|].
    destruct (imread _ body) as [?|im]; [done|].
    rewrite bind_run.
    rewrite (remap_stage_run _ im) by (simpl; by rewrite list_lookup_middle).
    by destruct (remap_value im).
Qed.

(** X5.  [nlcd_from_mrlc] makes exactly one request, to its fixed address,
    whether it returns or raises and whatever the [layer]; it prints nothing
    and changes no array that existed before the call. *)
Theorem nlcd_single_request bbox width height layer epsg kwargs w :
  let run := nlcd_from_mrlc requests_get imread bbox width height layer epsg
               kwargs w in
  sent run.2 =
    sent w ++ [(NLCD_BASE_URL,
                update_all (nlcd_params bbox width height layer epsg) kwargs)]
  ∧ stdout run.2 = stdout w
  ∧ heap w `prefix_of` heap run.2.
Proof.
  cbv zeta. rewrite nlcd_run. cbv zeta.
  destruct (requests_get _ _) as [?|body].
  { repeat split; done. }
  destruct (imread _ body) as [?|im].
  { repeat split; done. }
  rewrite bind_run.
  rewrite (remap_stage_run _ im) by (simpl; by rewrite list_lookup_middle).
  destruct (remap_value im); cbn [fst snd heap sent stdout];
    (repeat split; [done..|]); rewrite <- app_assoc; by apply prefix_app_r.
Qed.

End LandCoverFacts.

(** ** The remap stage on any integer raster *)

Lemma lut_negative p :
  (-22 ≤ p < 0)%Z → lut p = Some (remap_table_spec (p + 22)).
Proof.
  intros Hp.
  assert (p ∈ (λ k, Z.of_nat k - 22)%Z <$> seq 0 22) as Hin.
  { apply list_elem_of_fmap. exists (Z.to_nat (p + 22)). split; [lia|].
    apply elem_of_seq. lia. }
  simpl in Hin. rewrite !elem_of_cons, elem_of_nil in Hin.
  destruct_or!; subst; try done.
Qed.

Lemma lut_wrap p :
  (-22 ≤ p ≤ 21)%Z → lut p = Some (remap_table_spec (wrap_index p)).
Proof.
  intros Hp. unfold wrap_index. destruct (Z.ltb_spec p 0).
  - apply lut_negative. lia.
  - apply lut_in_range. lia.
Qed.

Lemma lut_outside p : (p < -22 ∨ 21 < p)%Z → lut p = None.
Proof.
  intros Hp. unfold lut, index_in. simpl length.
  rewrite !decide_False by lia. done.
Qed.

Lemma remap_value_signed im :
  Forall (λ p, -22 ≤ p ≤ 21)%Z (data im) →
  remap_value im =
  inr (NdArray (shape im)
         (map (λ p, remap_table_spec (wrap_index p)) (data im))).
Proof.
  intros H. unfold remap_value, getitem_index. fold lut.
  replace (mapM lut (data im))
    with (Some (map (λ p, remap_table_spec (wrap_index p)) (data im))); [done|].
  symmetry. apply mapM_Some.
  apply Forall2_fmap_r, Forall_Forall2_diag.
  eapply Forall_impl; [exact H|]. intros p Hp. by apply lut_wrap.
Qed.

Lemma remap_value_outside im :
  Exists (λ p, p < -22 ∨ 21 < p)%Z (data im) →
  remap_value im = inl IndexError.
Proof.
  intros H. unfold remap_value, getitem_index. fold lut.
  replace (mapM lut (data im)) with (@None (list Z)); [done|].
  symmetry. apply mapM_None.
  eapply Exists_impl; [exact H|]. intros p Hp. by apply lut_outside.
Qed.

Lemma remap_table_spec_fixed p :
  p ∈ target_classes → (remap_table_spec p = p ↔ p ∈ [0; 1; 5]%Z).
Proof.
  unfold target_classes. rewrite !elem_of_cons, !elem_of_nil.
  intros H. destruct_or!; subst; try done; vm_compute; split;
    first [discriminate | tauto | intros; destruct_or!; discriminate].
Qed.

(** X6.  The remap stage accepts exactly the rasters whose codes all lie in
    -22..21: it then returns a new array of the shape of the input, each code
    looked up in the table, a negative code counting from the end of the
    table; any other raster raises [IndexError].  In both cases the input
    array is left as it was. *)
Theorem remap_index_bounds img im w :
  heap w !! img = Some (IntArr im) →
  (Forall (λ p, -22 ≤ p ≤ 21)%Z (data im) →
     ∃ r w', remap_stage img w = (Return r, w')
       ∧ heap w !! r = None
       ∧ heap w' !! img = Some (IntArr im)
       ∧ heap w' !! r =
         Some (IntArr (NdArray (shape im)
                         (map (λ p, remap_table_spec (wrap_index p)) (data im)))))
  ∧ (Exists (λ p, p < -22 ∨ 21 < p)%Z (data im) →
       ∃ w', remap_stage img w = (Raise IndexError, w')
         ∧ heap w' !! img = Some (IntArr im)).
Proof.
  intros Him. pose proof (remap_stage_run img im w Him) as Hrun.
  cbv zeta in Hrun. apply lookup_lt_Some in Him as Hlt. split.
  - intros Hr. rewrite (remap_value_signed im Hr) in Hrun.
    eexists _, _. split; [exact Hrun|]. cbn [heap]. split; [|split].
    + apply lookup_ge_None. lia.
    + by rewrite lookup_app_l.
    + rewrite lookup_app_r by lia.
      by replace (length (heap w) + 3 - length (heap w)) with 3 by lia.
  - intros Hr. rewrite (remap_value_outside im Hr) in Hrun.
    eexists. split; [exact Hrun|]. cbn [heap]. by rewrite lookup_app_l.
Qed.

(** X7.  The remap is not meant to be applied twice: on the raster returned
    by a first pass a second pass always succeeds, and it keeps exactly the
    classes 0, 1 and 5 while it moves 2 to 1 and 3, 4 to 5. *)
Theorem remap_twice img im w r w1 :
  heap w !! img = Some (IntArr im) →
  remap_stage img w = (Return r, w1) →
  ∃ out r2 w2,
    heap w1 !! r = Some (IntArr out)
    ∧ remap_stage r w1 = (Return r2, w2)
    ∧ heap w2 !! r2 =
      Some (IntArr (NdArray (shape im) (map remap_table_spec (data out))))
    ∧ ∀ k p, data out !! k = Some p →
        p ∈ target_classes ∧ (remap_table_spec p = p ↔ p ∈ [0; 1; 5]%Z).
Proof.
  intros Him Hrun. pose proof (remap_stage_run img im w Him) as Hrun1.
  cbv zeta in Hrun1. rewrite Hrun in Hrun1.
  destruct (remap_value im) as [e|out] eqn:Hv; [done|].
  injection Hrun1 as -> ->.
  destruct (remap_value_target im out Hv) as [Hshape Hall].
  assert (Hr : heap (World (heap w ++ [IntArr (np_array_uint8 (REMAP.*1));
                      IntArr (np_array_uint8 (REMAP.*2));
                      IntArr mapping_ar_value] ++ [IntArr out]) (sent w)
                      (stdout w)) !! (length (heap w) + 3) = Some (IntArr out)).
  { cbn [heap]. rewrite lookup_app_r by lia.
    by replace (length (heap w) + 3 - length (heap w)) with 3 by lia. }
  pose proof (remap_stage_run _ out _ Hr) as Hrun2. cbv zeta in Hrun2.
  rewrite remap_value_in_range in Hrun2.
  2:{ eapply Forall_impl; [exact Hall|]. intros p.
      unfold target_classes. rewrite !elem_of_cons, elem_of_nil.
      intros ?; destruct_or!; subst; try done; lia. }
  eexists out, _, _. split; [exact Hr|]. split; [exact Hrun2|]. split.
  - cbn [heap]. rewrite Hshape.
    set (h1 := heap w ++ _). rewrite lookup_app_r by lia.
    by replace (length h1 + 3 - length h1) with 3 by lia.
  - intros k p Hk. rewrite Forall_lookup in Hall.
    split; [by eapply Hall|]. apply remap_table_spec_fixed. by eapply Hall.
Qed.

(** ** The colorizer: samples, empty and low-rank inputs *)

Lemma COLOR_MAP_components p c :
  COLOR_MAP !! p = Some c → Forall (λ x, x ∈ palette_components) c.
Proof.
  intros H. assert (Hp : p ∈ palette_keys) by (apply COLOR_MAP_keys; eauto).
  unfold palette_keys in Hp. rewrite !elem_of_cons, elem_of_nil in Hp.
  destruct_or!; subst; try done; vm_compute in H; simplify_eq;
    unfold palette_components; repeat constructor.
Qed.

Lemma fill_true_Forall (P : Q → Prop) mask : ∀ dat vals,
  Forall P dat → Forall P vals → Forall P (fill_true mask dat vals).
Proof.
  induction mask as [|b m IH]; intros [|x d] vals Hd Hv; simpl; try done.
  inversion_clear Hd. destruct b; [destruct vals as [|v vs]|].
  - constructor; [done|]. by apply IH.
  - inversion_clear Hv. constructor; [done|]. by apply IH.
  - constructor; [done|]. by apply IH.
Qed.

Lemma fill_rows_Forall (P : Q → Prop) n row mask : ∀ dat,
  Forall P dat → Forall P row → Forall P (fill_rows n mask dat row).
Proof.
  induction mask as [|b m IH]; intros dat Hd Hr; simpl; [done|].
  apply Forall_app. split.
  - destruct b; [done|]. by apply Forall_take.
  - apply IH; [|done]. by apply Forall_drop.
Qed.

Lemma setitem_mask_Forall (P : Q → Prop) cc m rgb cc' :
  Forall P (data cc) → Forall P rgb →
  setitem_mask cc m rgb = inr cc' → Forall P (data cc').
Proof.
  unfold setitem_mask. intros Hcc Hrgb.
  repeat case_decide; intros [= <-]; simpl.
  - by apply fill_true_Forall.
  - by apply fill_rows_Forall.
Qed.

Lemma paint_all_components im covs : ∀ cc cc',
  Forall (λ x, x ∈ palette_components) (data cc) →
  paint_all im covs cc = inr cc' →
  Forall (λ x, x ∈ palette_components) (data cc').
Proof.
  induction covs as [|cov covs IH]; simpl; intros cc cc' Hcc.
  - by intros [= <-].
  - destruct (color_of cov) as [|rgb] eqn:Hcol; [done|].
    destruct (setitem_mask cc _ rgb) as [|cc1] eqn:E; [done|].
    apply IH. eapply setitem_mask_Forall; [exact Hcc| |exact E].
    apply color_of_inr in Hcol as [Hcol _]. by eapply COLOR_MAP_components.
Qed.

Lemma component_sample x :
  x ∈ palette_components → trunc_uint8 (Qmult x 255%Q) ∈ sample_values.
Proof.
  unfold palette_components. rewrite !elem_of_cons, elem_of_nil.
  intros H. destruct_or!; subst; try done; vm_compute; repeat constructor.
Qed.

(** X8.  Every sample of an image returned by [colorize_landcover] is one of
    0, 95, 127 and 255, for an input of any rank: the conversion to eight bits
    never wraps around. *)
Theorem colorize_samples img im w r w' :
  heap w !! img = Some (IntArr im) →
  colorize_landcover img w = (Return (VRef r), w') →
  ∃ out, heap w' !! r = Some (IntArr out)
         ∧ Forall (λ s, s ∈ sample_values) (data out).
Proof.
  intros Him Hret. destruct (colorize_run img im w Him) as (w1 & _ & Hrun).
  destruct (colorize_value im) as [e|out] eqn:Hv; [congruence|].
  destruct Hrun as (r1 & Hrun & _ & Hr). rewrite Hrun in Hret.
  injection Hret as <- <-. exists out. split; [done|].
  unfold colorize_value in Hv.
  destruct (shape_index (shape im) 0) as [|h]; [done|].
  destruct (shape_index (shape im) 1) as [|wd]; [done|].
  destruct (paint_all _ _ _) as [|cc] eqn:Hp; [done|]. injection Hv as <-.
  apply paint_all_components in Hp.
  - simpl. rewrite map_map. apply Forall_fmap.
    eapply Forall_impl; [exact Hp|]. intros x Hx. by apply component_sample.
  - simpl. apply Forall_replicate. unfold palette_components. constructor.
Qed.

(** X9.  An input without elements, of rank two or more, is accepted: the
    result is the all-zero image with the first two dimensions of the input
    and three channels. *)
Theorem colorize_empty img im w h wd rest :
  heap w !! img = Some (IntArr im) →
  shape im = h :: wd :: rest →
  data im = [] →
  ∃ r w',
    colorize_landcover img w = (Return (VRef r), w')
    ∧ heap w' !! r =
      Some (IntArr (NdArray [h; wd; 3] (replicate (h * wd * 3) 0%Z))).
Proof.
  intros Him Hs Hd. destruct (colorize_run img im w Him) as (w' & _ & Hrun).
  assert (Hv : colorize_value im =
               inr (NdArray [h; wd; 3] (replicate (h * wd * 3) 0%Z))).
  { unfold colorize_value. rewrite Hs, Hd. simpl.
    unfold astype_uint8, mul_scalar, np_zeros. simpl. f_equal. f_equal.
    rewrite map_map, (fmap_replicate (λ x, trunc_uint8 (Qmult x 255%Q))).
    unfold size_of. simpl. f_equal. lia. }
  rewrite Hv in Hrun. destruct Hrun as (r & Hrun & _ & Hr). eauto.
Qed.

(** X10.  An input of rank below two is refused at once with [IndexError],
    raised by [img.shape[0]] or [img.shape[1]], before anything is
    allocated: the world is exactly as it was. *)
Theorem colorize_low_rank img im w :
  heap w !! img = Some (IntArr im) →
  length (shape im) < 2 →
  colorize_landcover img w = (Raise IndexError, w).
Proof.
  intros Him Hrank. unfold colorize_landcover.
  rewrite (run_load_int _ _ _ _ Him).
  destruct (shape im) as [|h [|wd rest]]; simpl in Hrank; [done|done|lia].
Qed.

(** ** The colorizer: the image determines the raster *)

Lemma rgb_of_inj p q :
  p ∈ palette_keys → q ∈ palette_keys → rgb_of p = rgb_of q → p = q.
Proof.
  unfold palette_keys. rewrite !elem_of_cons, !elem_of_nil.
  intros Hp Hq H. destruct_or!; subst; try done; by vm_compute in H.
Qed.

Lemma flat_map_rgb_of_inj l1 : ∀ l2,
  Forall (λ p, p ∈ palette_keys) l1 →
  Forall (λ p, p ∈ palette_keys) l2 →
  flat_map rgb_of l1 = flat_map rgb_of l2 → l1 = l2.
Proof.
  induction l1 as [|p l1 IH]; intros [|q l2] H1 H2 Heq; simpl in Heq.
  - done.
  - inversion_clear H2 as [|? ? Hq _]. apply rgb_of_length in Hq.
    apply (f_equal length) in Heq. rewrite length_app in Heq. simpl in Heq. lia.
  - inversion_clear H1 as [|? ? Hp _]. apply rgb_of_length in Hp.
    apply (f_equal length) in Heq. rewrite length_app in Heq. simpl in Heq. lia.
  - inversion_clear H1 as [|? ? Hp H1']. inversion_clear H2 as [|? ? Hq H2'].
    apply app_inj_1 in Heq as [Hpq Hrest].
    2:{ by rewrite !rgb_of_length. }
    f_equal; [by apply rgb_of_inj|by apply IH].
Qed.

(** X11.  The seven colours are distinct, so the image determines the
    raster: two 2-D rasters of palette values that [colorize_landcover] turns
    into equal images are equal. *)
Theorem colorize_injective img1 im1 w1 r1 w1' img2 im2 w2 r2 w2' :
  heap w1 !! img1 = Some (IntArr im1) →
  heap w2 !! img2 = Some (IntArr im2) →
  length (shape im1) = 2 → length (shape im2) = 2 →
  wf_array im1 → wf_array im2 →
  Forall (λ p, p ∈ palette_keys) (data im1) →
  Forall (λ p, p ∈ palette_keys) (data im2) →
  colorize_landcover img1 w1 = (Return (VRef r1), w1') →
  colorize_landcover img2 w2 = (Return (VRef r2), w2') →
  heap w1' !! r1 = heap w2' !! r2 →
  im1 = im2.
Proof.
  intros Him1 Him2 Hr1 Hr2 Hwf1 Hwf2 Hk1 Hk2 Hrun1 Hrun2 Heq.
  destruct (shape im1) as [|h1 [|wd1 [|]]] eqn:Hs1; try done.
  destruct (shape im2) as [|h2 [|wd2 [|]]] eqn:Hs2; try done.
  destruct (colorize_run img1 im1 w1 Him1) as (w1'' & _ & Hc1).
  destruct (colorize_run img2 im2 w2 Him2) as (w2'' & _ & Hc2).
  rewrite (colorize_value_rank2 im1 h1 wd1 Hs1 Hwf1 Hk1) in Hc1.
  rewrite (colorize_value_rank2 im2 h2 wd2 Hs2 Hwf2 Hk2) in Hc2.
  destruct Hc1 as (r1' & Hc1 & _ & Hout1). destruct Hc2 as (r2' & Hc2 & _ & Hout2).
  rewrite Hrun1 in Hc1. rewrite Hrun2 in Hc2.
  injection Hc1 as <- <-. injection Hc2 as <- <-.
  rewrite Hout1, Hout2 in Heq. injection Heq as -> -> Hdata.
  apply flat_map_rgb_of_inj in Hdata; [|done|done].
  destruct im1, im2. simpl in *. congruence.
Qed.

(** ** The colorizer: which value the [KeyError] names *)

Lemma sorted_after l1 c l2 y :
  StronglySorted Z.lt (l1 ++ c :: l2) → y ∈ l2 → (c < y)%Z.
Proof.
  induction l1 as [|a l1 IH]; simpl; intros H Hy; inversion_clear H as [|? ? Hs Hall].
  - rewrite Forall_forall in Hall. auto.
  - auto.
Qed.

(** On a 2-D raster a failing loop stops at the first value without a
    colour, every value before it having one. *)
Lemma paint_all_rank2_first h w (im : ndarray Z) covs : ∀ cc e,
  shape im = [h; w] → shape cc = [h; w; 3] →
  paint_all im covs cc = inl e →
  ∃ l1 c l2, covs = l1 ++ c :: l2
    ∧ Forall (λ c, is_Some (COLOR_MAP !! c)) l1
    ∧ COLOR_MAP !! c = None ∧ e = KeyError c.
Proof.
  intros cc e Him. revert cc.
  induction covs as [|cov covs IH]; intros cc Hcc; simpl; [done|].
  unfold color_of. destruct (COLOR_MAP !! cov) as [rgb|] eqn:Hcov.
  - rewrite (setitem_mask_rows h w) by eauto using COLOR_MAP_length.
    intros He. apply IH in He as (l1 & c & l2 & -> & Hl1 & Hc & ->); [|done].
    exists (cov :: l1), c, l2. split; [done|]. split; [|done].
    constructor; [eauto|done].
  - intros [= <-]. exists [], cov, covs. split; [done|]. split; [constructor|done].
Qed.

(** X12.  On a 2-D raster holding values outside the palette, the
    [KeyError] names the least of them: the distinct values are visited in
    ascending order. *)
Theorem colorize_least_unknown img im w x :
  heap w !! img = Some (IntArr im) →
  length (shape im) = 2 →
  x ∈ data im →
  x ∉ palette_keys →
  ∃ c w',
    colorize_landcover img w = (Raise (KeyError c), w')
    ∧ c ∈ data im ∧ (c ∉ palette_keys)
    ∧ ∀ y, y ∈ data im → y ∉ palette_keys → (c ≤ y)%Z.
Proof.
  intros Him Hrank Hx Hbad.
  destruct (shape im) as [|h [|wd [|]]] eqn:Hs; try done.
  destruct (colorize_run img im w Him) as (w' & _ & Hrun).
  destruct (colorize_value_bad im x Hx Hbad) as [e He].
  rewrite He in Hrun. unfold colorize_value in He. rewrite Hs in He.
  simpl in He.
  destruct (paint_all im (unique_sorted (data im)) (np_zeros 0%Q [h; wd; 3]))
    as [e'|cc] eqn:Hp; [|done]. injection He as ->.
  destruct (paint_all_rank2_first h wd im _ (np_zeros 0%Q [h; wd; 3]) _ Hs
              eq_refl Hp)
    as (l1 & c & l2 & Hcovs & Hl1 & Hc & ->).
  exists c, w'. split; [done|].
  assert (Hin : c ∈ unique_sorted (data im)).
  { rewrite Hcovs, elem_of_app, elem_of_cons. auto. }
  split; [by apply unique_sorted_elem|]. split; [by apply COLOR_MAP_None|].
  intros y Hy Hybad. apply unique_sorted_elem in Hy.
  rewrite Hcovs, elem_of_app, elem_of_cons in Hy.
  destruct Hy as [Hy|[->|Hy]].
  - rewrite Forall_forall in Hl1. apply Hl1 in Hy.
    apply COLOR_MAP_keys in Hy. done.
  - lia.
  - pose proof (unique_sorted_sorted (data im)) as Hsorted.
    rewrite Hcovs in Hsorted.
    pose proof (sorted_after l1 c l2 y Hsorted Hy). lia.
Qed.

(** ** The colorizer on inputs of higher rank *)

Lemma unique_sorted_nil l : unique_sorted l = [] → l = [].
Proof.
  destruct l as [|x l]; [done|]. intros H.
  assert (x ∈ unique_sorted (x :: l)) as Hx
    by (apply unique_sorted_elem, list_elem_of_here).
  rewrite H in Hx. by apply elem_of_nil in Hx.
Qed.

(** X13.  A non-empty input of rank three or more whose dimensions after the
    first two are not just one dimension of size 3 is never colorized, values
    of the palette or not: the call raises [IndexError] at the first mask
    assignment, or [KeyError] if the least value has no colour. *)
Theorem colorize_higher_rank img im w h wd rest :
  heap w !! img = Some (IntArr im) →
  shape im = h :: wd :: rest →
  rest ≠ [] → rest ≠ [3] →
  data im ≠ [] →
  ∃ e w',
    colorize_landcover img w = (Raise e, w')
    ∧ (e = IndexError ∨ ∃ c, e = KeyError c ∧ c ∈ data im ∧ (c ∉ palette_keys)).
Proof.
  intros Him Hs Hrest Hrest3 Hne.
  destruct (colorize_run img im w Him) as (w' & _ & Hrun).
  assert (Hv : colorize_value im = inl IndexError ∨
               ∃ c, colorize_value im = inl (KeyError c)
                    ∧ c ∈ data im ∧ (c ∉ palette_keys)).
  { unfold colorize_value. rewrite Hs. simpl.
    destruct (unique_sorted (data im)) as [|cov covs] eqn:Hu.
    { by apply unique_sorted_nil in Hu. }
    simpl. unfold color_of.
    destruct (COLOR_MAP !! cov) as [rgb|] eqn:Hcov.
    - left. unfold setitem_mask. simpl. rewrite Hs.
      rewrite decide_False by (intros [= ->]; done).
      rewrite decide_False; [done|]. intros [_ [= ->]]. done.
    - right. exists cov. split; [done|]. split.
      + apply unique_sorted_elem. rewrite Hu. apply list_elem_of_here.
      + by apply COLOR_MAP_None. }
  destruct Hv as [Hv|(c & Hv & Hc)]; rewrite Hv in Hrun; eauto 10.
Qed.

Lemma count_true_eq_scalar c l :
  count_true (map (λ x, (x =? c)%Z) l) = length (filter (λ x, x = c) l).
Proof.
  unfold count_true. induction l as [|a l IH]; simpl; [done|].
  rewrite !filter_cons. destruct (Z.eqb_spec a c) as [->|Hne].
  - rewrite !decide_True by done. simpl. by rewrite IH.
  - rewrite decide_False by done. by rewrite decide_False.
Qed.

(** With a mask of the shape of [cover_colors] the loop goes through exactly
    when every value has a colour and sits on three positions. *)
Lemma paint_all_same_shape (im : ndarray Z) covs : ∀ cc,
  shape cc = shape im →
  (∃ cc', paint_all im covs cc = inr cc') ↔
  Forall (λ c, is_Some (COLOR_MAP !! c)
               ∧ length (filter (λ x, x = c) (data im)) = 3) covs.
Proof.
  induction covs as [|cov covs IH]; intros cc Hcc; simpl.
  { split; [constructor|eauto]. }
  rewrite Forall_cons. unfold color_of.
  destruct (COLOR_MAP !! cov) as [rgb|] eqn:Hcov.
  2:{ split; [by intros [? ?]|]. by intros [[[? ?] _] _]. }
  unfold setitem_mask. simpl. rewrite decide_True by done.
  rewrite count_true_eq_scalar, (COLOR_MAP_length cov rgb Hcov).
  case_decide as Hcount.
  - rewrite IH by done. split; [eauto|tauto].
  - split; [by intros [? ?]|]. tauto.
Qed.

(** X14.  A three-band input, of shape (H, W, 3), is colorized only in a
    degenerate case: exactly when each of its values is a palette key and
    occurs on exactly three positions.  Any other three-band input makes
    [colorize_landcover] raise. *)
Theorem colorize_three_band img im w h wd :
  heap w !! img = Some (IntArr im) →
  shape im = [h; wd; 3] →
  (∃ r w', colorize_landcover img w = (Return (VRef r), w'))
  ↔ ∀ c, c ∈ data im →
      c ∈ palette_keys ∧ length (filter (λ x, x = c) (data im)) = 3.
Proof.
  intros Him Hs. destruct (colorize_run img im w Him) as (w' & _ & Hrun).
  assert (Hv : (∃ out, colorize_value im = inr out) ↔
               ∀ c, c ∈ data im →
                 c ∈ palette_keys ∧ length (filter (λ x, x = c) (data im)) = 3).
  { unfold colorize_value. rewrite Hs. simpl.
    pose proof (paint_all_same_shape im (unique_sorted (data im))
                  (np_zeros 0%Q [h; wd; 3]) (eq_sym Hs)) as Hp.
    rewrite Forall_forall in Hp.
    split.
    - intros [out Hout] c Hc.
      destruct (paint_all _ _ _) as [|cc]; [done|].
      destruct Hp as [Hp _]. destruct (Hp (ex_intro _ cc eq_refl) c) as [Hk Hn].
      { by apply unique_sorted_elem. }
      split; [by apply COLOR_MAP_keys|done].
    - intros Hall. destruct Hp as [_ Hp]. destruct Hp as [cc Hcc].
      { intros c Hc. rewrite unique_sorted_elem in Hc. destruct (Hall c Hc).
        split; [by apply COLOR_MAP_keys|done]. }
      rewrite Hcc. eauto. }
  rewrite <- Hv. split.
  - intros (r & w1 & Hret). destruct (colorize_value im); [congruence|eauto].
  - intros [out Hout]. rewrite Hout in Hrun.
    destruct Hrun as (r & Hrun & _). eauto.
Qed.

(** ** Fetching and colorizing *)

Lemma flat_map_map {A B C} (f : B → list C) (g : A → B) l :
  flat_map f (map g l) = flat_map (λ x, f (g x)) l.
Proof. induction l as [|a l IH]; simpl; [done|]. by rewrite IH. Qed.

Section PipelineFacts.

Variable requests_get : nat → request → exn + bytes.
Variable imread : option string → bytes → exn + ndarray Z.

(** X15.  Whenever the response decodes to a 2-D raster of codes 0-21,
    [nlcd_from_mrlc] followed by [colorize_landcover] succeeds, and every
    pixel of the image has the colour of the class its code is remapped
    to. *)
Theorem landcover_pipeline bbox width height layer epsg kwargs w body im h wd :
  let req := (NLCD_BASE_URL,
              update_all (nlcd_params bbox width height layer epsg) kwargs) in
  requests_get (length (sent w)) req = inr body →
  imread (Some "tiff"%string) body = inr im →
  shape im = [h; wd] →
  wf_array im →
  Forall (λ p, 0 ≤ p ≤ 21)%Z (data im) →
  ∃ r w1 r' w2,
    nlcd_from_mrlc requests_get imread bbox width height layer epsg kwargs w
    = (Return (VRef r), w1)
    ∧ colorize_landcover r w1 = (Return (VRef r'), w2)
    ∧ heap w2 !! r' =
      Some (IntArr (NdArray [h; wd; 3]
                      (flat_map (λ p, rgb_of (remap_table_spec p)) (data im)))).
Proof.
  intros req Hget Hread Hs Hwf Hcodes.
  pose proof (nlcd_run_decoded requests_get imread bbox width height layer
                epsg kwargs w body im Hget Hread) as Hrun.
  cbv zeta in Hrun. rewrite (remap_value_in_range im Hcodes) in Hrun.
  set (classes := NdArray (shape im) (map remap_table_spec (data im))) in *.
  match type of Hrun with _ = (_, ?w1) =>
    assert (Hr : heap w1 !! (length (heap w) + 4) = Some (IntArr classes)) end.
  { cbn [heap]. rewrite lookup_app_r by lia.
    by replace (_ + 4 - _) with 4 by lia. }
  destruct (colorize_run _ classes _ Hr) as (w2 & _ & Hcol).
  rewrite (colorize_value_rank2 classes h wd) in Hcol.
  - destruct Hcol as (r' & Hcol & _ & Hr').
    eexists _, _, r', w2. split; [exact Hrun|]. split; [exact Hcol|].
    rewrite Hr'. simpl. by rewrite flat_map_map.
  - done.
  - unfold wf_array, classes in *. simpl. by rewrite length_map.
  - simpl. apply Forall_fmap. eapply Forall_impl; [exact Hcodes|].
    intros p Hp. simpl. apply target_classes_palette.
    apply (lut_target p). by apply lut_in_range.
Qed.

End PipelineFacts.

(** ** The further properties on concrete inputs *)

(** [naip_succeeds_after_failures]: two failures, then an answer, with the
    default three retries. *)
Lemma naip_succeeds_after_failures_witness :
  let im := NdArray [1; 1; 3] [10; 20; 30]%Z in
  naip2016_from_orgeo (flaky 2 []) (decode_to im) 3
    [PyInt 0; PyInt 0; PyInt 10; PyInt 10] (PyInt 1) (PyInt 1) default_epsg
    default_num_retries [] empty_world
  = (Return (VRef 0),
     World [IntArr im]
       (replicate 3
          (NAIP_BASE_URL,
           naip_params [PyInt 0; PyInt 0; PyInt 10; PyInt 10] (PyInt 1)
             (PyInt 1) default_epsg)) []).
Proof.
  intros im.
  apply (naip_succeeds_after_failures (flaky 2 []) (decode_to im) 3
           [PyInt 0; PyInt 0; PyInt 10; PyInt 10] (PyInt 1) (PyInt 1)
           default_epsg default_num_retries [] empty_world 2 [] im).
  - lia.
  - unfold default_num_retries. lia.
  - intros i Hi. exists TransportError. left. simpl. unfold flaky.
    destruct (Nat.ltb_spec i 2); [reflexivity|lia].
  - reflexivity.
  - reflexivity.
Defined.

(** [naip_no_retries]: no retry allowed. *)
Lemma naip_no_retries_witness :
  naip2016_from_orgeo (answer []) (decode_to (NdArray [1; 1] [0%Z])) 5 []
    (PyInt 1) (PyInt 1) default_epsg 0 [] empty_world
  = (Return VNone, World [] [] [failure_message 0]).
Proof.
  apply (naip_no_retries (answer []) (decode_to (NdArray [1; 1] [0%Z])) 5 []
           (PyInt 1) (PyInt 1) default_epsg 0 [] empty_world).
  lia.
Defined.

(** [naip_outcome]: a transport that fails once. *)
Lemma naip_outcome_witness :
  ∃ v w' m,
    naip2016_from_orgeo (flaky 1 []) (decode_to (NdArray [1; 1] [0%Z])) 3 []
      (PyInt 1) (PyInt 1) default_epsg default_num_retries [] empty_world
    = (Return v, w')
    ∧ length (sent w') = m ∧ m ≤ 3.
Proof.
  destruct (naip_outcome (flaky 1 []) (decode_to (NdArray [1; 1] [0%Z])) 3 []
              (PyInt 1) (PyInt 1) default_epsg default_num_retries []
              empty_world) as (v & w' & m & Hrun & Hsent & Hm & _).
  - unfold default_num_retries. simpl. lia.
  - exists v, w', m. split; [exact Hrun|]. split; [|exact Hm].
    rewrite Hsent. simpl. apply length_replicate.
Defined.

(** [request_keeps_defaults]: a new key beside the default [format]. *)
Lemma request_keeps_defaults_witness :
  ∃ p,
    sent (nlcd_from_mrlc no_transport no_decoder [] (PyInt 2) (PyInt 1)
            default_layer default_epsg
            [("transparent"%string, PyStr "true")] empty_world).2
    = [(NLCD_BASE_URL, p)]
    ∧ p !! "format"%string = Some (PyStr "image/geotiff").
Proof.
  destruct (request_keeps_defaults no_transport no_decoder
              [("transparent"%string, PyStr "true")] "format"%string)
    as [_ Hnlcd].
  - simpl. rewrite list_elem_of_singleton. discriminate.
  - destruct (Hnlcd [] (PyInt 2) (PyInt 1) default_layer default_epsg
                empty_world) as (p & Hsent & Hp & _).
    exists p. split; [exact Hsent|]. rewrite Hp. reflexivity.
Defined.

(** [remap_index_bounds]: a signed raster with the codes -1 and -22. *)
Lemma remap_index_bounds_witness :
  let im := NdArray [1; 3] [-1; 9; -22]%Z in
  ∃ r w',
    remap_stage 0 (World [IntArr im] [] []) = (Return r, w')
    ∧ heap w' !! r = Some (IntArr (NdArray [1; 3] [3; 2; 0]%Z)).
Proof.
  intros im.
  destruct (remap_index_bounds 0 im (World [IntArr im] [] []) eq_refl)
    as [Hok _].
  destruct Hok as (r & w' & Hrun & _ & _ & Hr).
  - simpl. repeat constructor; lia.
  - exists r, w'. split; [exact Hrun|exact Hr].
Defined.

(** [remap_twice]: forest, 9, becomes 2 and then 1. *)
Lemma remap_twice_witness :
  let im := NdArray [1; 2] [9; 1]%Z in
  let w := World [IntArr im] [] [] in
  ∃ out r2 w2,
    heap (remap_stage 0 w).2 !! 4 = Some (IntArr out)
    ∧ remap_stage 4 (remap_stage 0 w).2 = (Return r2, w2)
    ∧ heap w2 !! r2 =
      Some (IntArr (NdArray [1; 2] (map remap_table_spec (data out)))).
Proof.
  intros im w.
  destruct (remap_twice 0 im w 4 (remap_stage 0 w).2 eq_refl eq_refl)
    as (out & r2 & w2 & Hout & Hrun & Hr2 & _).
  exists out, r2, w2. split; [exact Hout|]. split; [exact Hrun|exact Hr2].
Defined.

(** [colorize_samples] on a 1x2 raster. *)
Lemma colorize_samples_witness :
  let w := World [IntArr (NdArray [1; 2] [4; 3]%Z)] [] [] in
  ∃ out, heap (colorize_landcover 0 w).2 !! 6 = Some (IntArr out)
         ∧ Forall (λ s, s ∈ sample_values) (data out).
Proof.
  intros w.
  apply (colorize_samples 0 (NdArray [1; 2] [4; 3]%Z) w 6
           (colorize_landcover 0 w).2); reflexivity.
Defined.

(** [colorize_empty] on a raster of no rows. *)
Lemma colorize_empty_witness :
  ∃ r w',
    colorize_landcover 0 (World [IntArr (NdArray [0; 4] [])] [] [])
    = (Return (VRef r), w')
    ∧ heap w' !! r = Some (IntArr (NdArray [0; 4; 3] [])).
Proof.
  apply (colorize_empty 0 (NdArray [0; 4] [])
           (World [IntArr (NdArray [0; 4] [])] [] []) 0 4 []); reflexivity.
Defined.

(** [colorize_low_rank] on a 1-D array. *)
Lemma colorize_low_rank_witness :
  let w := World [IntArr (NdArray [2] [1; 1]%Z)] [] [] in
  colorize_landcover 0 w = (Raise IndexError, w).
Proof.
  intros w. apply (colorize_low_rank 0 (NdArray [2] [1; 1]%Z) w).
  - reflexivity.
  - simpl. lia.
Defined.

(** [colorize_injective]: one raster, colorized in two different heaps. *)
Lemma colorize_injective_witness :
  let im := NdArray [1; 2] [2; 255]%Z in
  let w1 := World [IntArr im] [] [] in
  let w2 := World [IntArr (NdArray [1] [7%Z]); IntArr im] [] [] in
  heap (colorize_landcover 0 w1).2 !! 6 = heap (colorize_landcover 1 w2).2 !! 7
  ∧ im = im.
Proof.
  intros im w1 w2. split; [reflexivity|].
  apply (colorize_injective 0 im w1 6 (colorize_landcover 0 w1).2
           1 im w2 7 (colorize_landcover 1 w2).2);
    try reflexivity; simpl; repeat constructor.
Defined.

(** [colorize_least_unknown]: of 9 and 7 the error names 7. *)
Lemma colorize_least_unknown_witness :
  let im := NdArray [2; 2] [9; 2; 7; 4]%Z in
  ∃ c w',
    colorize_landcover 0 (World [IntArr im] [] []) = (Raise (KeyError c), w')
    ∧ (c ≤ 7)%Z.
Proof.
  intros im.
  assert (H9 : 9%Z ∉ palette_keys).
  { unfold palette_keys. rewrite !elem_of_cons, elem_of_nil.
    intros H. repeat (destruct H as [H|H]; [discriminate H|]). exact H. }
  assert (H7 : 7%Z ∉ palette_keys).
  { unfold palette_keys. rewrite !elem_of_cons, elem_of_nil.
    intros H. repeat (destruct H as [H|H]; [discriminate H|]). exact H. }
  destruct (colorize_least_unknown 0 im (World [IntArr im] [] []) 9%Z)
    as (c & w' & Hrun & _ & _ & Hleast).
  - reflexivity.
  - reflexivity.
  - simpl. repeat constructor.
  - exact H9.
  - exists c, w'. split; [exact Hrun|]. apply Hleast; [|exact H7].
    simpl. repeat constructor.
Defined.

(** [colorize_higher_rank] on an input of shape (1, 1, 2). *)
Lemma colorize_higher_rank_witness :
  let im := NdArray [1; 1; 2] [0; 1]%Z in
  ∃ e w',
    colorize_landcover 0 (World [IntArr im] [] []) = (Raise e, w')
    ∧ (e = IndexError ∨
       ∃ c, e = KeyError c ∧ c ∈ data im ∧ (c ∉ palette_keys)).
Proof.
  intros im.
  apply (colorize_higher_rank 0 im (World [IntArr im] [] []) 1 1 [2]);
    try reflexivity; discriminate.
Defined.

(** [colorize_three_band]: one pixel of three equal bands is accepted. *)
Lemma colorize_three_band_witness :
  ∃ r w',
    colorize_landcover 0 (World [IntArr (NdArray [1; 1; 3] [1; 1; 1]%Z)] [] [])
    = (Return (VRef r), w').
Proof.
  apply (colorize_three_band 0 (NdArray [1; 1; 3] [1; 1; 1]%Z)
           (World [IntArr (NdArray [1; 1; 3] [1; 1; 1]%Z)] [] []) 1 1
           eq_refl eq_refl).
  intros c Hc. simpl in Hc. rewrite !elem_of_cons, elem_of_nil in Hc.
  assert (c = 1%Z) as -> by tauto.
  split; [|reflexivity]. unfold palette_keys. repeat constructor.
Defined.

(** [landcover_pipeline] on a 1x3 raster of codes 9, 21 and 0. *)
Lemma landcover_pipeline_witness :
  let im := NdArray [1; 3] [9; 21; 0]%Z in
  ∃ r w1 r' w2,
    nlcd_from_mrlc (answer []) (decode_to im) [] (PyInt 3) (PyInt 1)
      default_layer default_epsg [] empty_world = (Return (VRef r), w1)
    ∧ colorize_landcover r w1 = (Return (VRef r'), w2)
    ∧ heap w2 !! r' =
      Some (IntArr (NdArray [1; 3; 3]
                      [0; 127; 0; 127; 255; 127; 255; 255; 255]%Z)).
Proof.
  intros im.
  apply (landcover_pipeline (answer []) (decode_to im) [] (PyInt 3) (PyInt 1)
           default_layer default_epsg [] empty_world [] im 1 3);
    try reflexivity.
  simpl. repeat constructor; lia.
Defined.
